(** * hirzel/file.h: whole-file helpers and line readers

    A shallow embedding of [include/hirzel/file.h] (the [HIRZEL_IMPLEMENT]
    part) and the properties its specification states about it.

    Conventions of the embedding
    - a byte is a [Byte.byte]; the values of C's [int] and [char] are [Z];
    - an object in memory (a [malloc] block, the automatic array [buf]) is
      the [list byte] of its contents; a pointer into it is an offset; the
      null pointer is [None];
    - the C library functions the code calls are modelled with the
      behaviour ISO C gives them; an access outside an object, or through
      the null pointer, stops the run with a [Fault];
    - [size_t] counters are [nat]: they count bytes that are in memory, so
      they do not wrap;
    - the file system and the calls made on it are explicit state
      ([world]); a [FILE] is the state of one open stream;
    - the files of a [world] are ordinary files, whose length [ftell]
      reports and [fread] delivers; [read_any] is [read] on a file system
      that has files of other kinds too. *)

From Stdlib Require Import ZArith Lia.
From Stdlib.Strings Require Import Ascii Byte.
From stdpp Require Import base option list gmap strings.

Local Open Scope Z_scope.

(** ** Bytes, [int] and [char] *)

Definition NUL : byte := x00.
Definition LF : byte := x0a.

#[global] Instance byte_eq_decision : EqDecision byte := Byte.byte_eq_dec.

Definition bytes (s : string) : list byte := String.list_byte_of_string s.

Definition byte_to_Z (b : byte) : Z := Z.of_N (Byte.to_N b).

(** Conversion to [unsigned char], as [ungetc] and [fputc] do. *)
Definition Z_to_byte (i : Z) : byte :=
  default x00 (Byte.of_N (Z.to_N (i mod 256))).

(** [<stdio.h>]'s [EOF]; -1 in glibc, musl, the BSDs and MSVC. *)
Definition EOF : Z := -1.

(** What the C implementation leaves open and the code depends on. *)
Record platform := {
  (** whether plain [char] is signed (x86) or unsigned (ARM, PowerPC) *)
  char_signed : bool;
  (** [malloc n] succeeds exactly when [n] is at most this many bytes *)
  malloc_max : N;
  (** [sizeof(char* )] *)
  sizeof_ptr : nat;
  (** the indeterminate byte found at offset [k] of an object that has
      not been written yet *)
  indeterminate : nat -> byte
}.

(** Conversion of an [int] to plain [char] (wraps modulo 256). *)
Definition to_char (pf : platform) (i : Z) : Z :=
  if char_signed pf then (i + 128) mod 256 - 128 else i mod 256.

(** ** Outcomes of a run *)

Inductive fault :=
| NullDeref                (* access through the null pointer *)
| OutOfBounds (off : Z)    (* access at offset [off], outside the object *)
| OutOfFuel.               (* the model's loop bound was reached *)

Inductive outcome (A : Type) :=
| Done (a : A)
| Fault (f : fault).
Arguments Done {A} a.
Arguments Fault {A} f.

#[global] Instance outcome_ret : MRet outcome := fun _ a => Done a.
#[global] Instance outcome_bind : MBind outcome := fun _ _ f m =>
  match m with
  | Done a => f a
  | Fault e => Fault e
  end.
#[global] Instance outcome_fmap : FMap outcome := fun _ _ f m =>
  match m with
  | Done a => Done (f a)
  | Fault e => Fault e
  end.

(** ** Objects in memory *)

(** A fresh object of [n] bytes. *)
Definition fresh (pf : platform) (n : nat) : list byte :=
  map (indeterminate pf) (seq 0 n).

(** [malloc]: a fresh block, or the null pointer. *)
Definition malloc (pf : platform) (n : nat) : option (list byte) :=
  if (N.of_nat n <=? malloc_max pf)%N then Some (fresh pf n) else None.

(** [m[off]] as an rvalue. *)
Definition load (m : list byte) (off : Z) : outcome byte :=
  if (off <? 0) then Fault (OutOfBounds off)
  else match m !! Z.to_nat off with
       | Some b => Done b
       | None => Fault (OutOfBounds off)
       end.

(** [m[off] = b]. *)
Definition store (m : list byte) (off : nat) (b : byte) : outcome (list byte) :=
  if decide (off < length m)%nat then Done (<[off := b]> m)
  else Fault (OutOfBounds (Z.of_nat off)).

(** ** [<string.h>] *)

Fixpoint find_nul (s : list byte) : option nat :=
  match s with
  | [] => None
  | b :: s' => if Byte.eqb b NUL then Some 0%nat else S <$> find_nul s'
  end.

(** [strlen s]: the string must be terminated inside its object. *)
Definition strlen (s : list byte) : outcome nat :=
  match find_nul s with
  | Some n => Done n
  | None => Fault (OutOfBounds (Z.of_nat (length s)))
  end.

(** The characters of the C string that starts at offset [off] of [m]. *)
Definition c_str_at (m : list byte) (off : nat) : list byte :=
  let s := drop off m in
  match find_nul s with
  | Some n => take n s
  | None => s
  end.

Definition c_str (m : list byte) : list byte := c_str_at m 0.

(** [strcpy(dst, src)]: copies the characters and the terminator. *)
Definition strcpy (dst src : list byte) : outcome (list byte) :=
  n ← strlen src;
  if decide (n + 1 <= length dst)%nat
  then Done (take (n + 1) src ++ drop (n + 1) dst)
  else Fault (OutOfBounds (Z.of_nat (length dst))).

(** [strcat(dst, src)]: appends at [dst]'s terminator. *)
Definition strcat (dst src : list byte) : outcome (list byte) :=
  d ← strlen dst;
  n ← strlen src;
  if decide (d + n + 1 <= length dst)%nat
  then Done (take d dst ++ take (n + 1) src ++ drop (d + n + 1) dst)
  else Fault (OutOfBounds (Z.of_nat (length dst))).

(** ** Streams *)

(** An open stream. An input stream is the bytes already consumed and the
    bytes still to come; an output stream names the file it appends to. *)
Inductive FILE :=
| InStream (behind ahead : list byte)
| OutStream (path : string).

(** The bytes a stream still has to deliver. *)
Definition unread (st : FILE) : list byte :=
  match st with
  | InStream _ ahead => ahead
  | OutStream _ => []
  end.

(** [getc]: the next byte as an [int], or [EOF]. *)
Definition getc (st : FILE) : Z * FILE :=
  match st with
  | InStream behind (b :: ahead) => (byte_to_Z b, InStream (behind ++ [b]) ahead)
  | _ => (EOF, st)
  end.

(** [ungetc(c, stream)]: pushes [(unsigned char)c] back; [EOF] is not
    pushed. One byte of push-back is guaranteed, also at the start and at
    the end of the stream. *)
Definition ungetc (c : Z) (st : FILE) : FILE :=
  if c =? EOF then st
  else match st with
       | InStream behind ahead => InStream (removelast behind) (Z_to_byte c :: ahead)
       | OutStream _ => st
       end.

(** The bytes one [fgets] takes: at most [n], stopping after a newline. *)
Fixpoint fgets_take (n : nat) (s : list byte) : list byte * list byte :=
  match n, s with
  | S n', b :: s' =>
      if Byte.eqb b LF then ([b], s')
      else let '(c, r) := fgets_take n' s' in (b :: c, r)
  | _, _ => ([], s)
  end.

(** [fgets(buf, n, stream)]: at end of file, or on a stream that cannot be
    read, nothing is stored and the result is null ([false]); otherwise the
    bytes read and a terminator are stored at the start of [buf]. *)
Definition fgets (buf : list byte) (n : nat) (st : FILE) : bool * list byte * FILE :=
  match st with
  | InStream behind ((_ :: _) as ahead) =>
      let '(c, rest) := fgets_take (n - 1) ahead in
      (true, c ++ NUL :: drop (length c + 1) buf, InStream (behind ++ c) rest)
  | _ => (false, buf, st)
  end.

(** ** [hxfile_read_line] *)

(** The [do ... while] loop (lines 183-213). [line = None] is the null
    pointer the loop starts with. *)
Fixpoint read_line_loop (pf : platform) (fuel : nat) (buf : list byte)
    (osize : nat) (line : option (list byte)) (st : FILE)
  : outcome (list byte * FILE) :=
  match fuel with
  | O => Fault OutOfFuel
  | S fuel' =>
      (* buf[126] = 0; *)
      buf ← store buf 126 NUL;
      (* fgets(buf, 128, stream); *)
      let '(_, buf, st) := fgets buf 128 st in
      (* size_t len = strlen(buf); *)
      len ← strlen buf;
      (* osize += (len + 1) * sizeof(char); *)
      let osize := (osize + (len + 1) * 1)%nat in
      (* char* tmp = malloc(osize); *)
      match malloc pf osize with
      | None =>
          (* strcpy(tmp, line) or tmp[0] = 0, with tmp null *)
          Fault NullDeref
      | Some tmp =>
          tmp ← match line with
                | Some l => strcpy tmp l        (* strcpy(tmp, line); free(line); *)
                | None => store tmp 0 NUL       (* tmp[0] = 0; *)
                end;
          (* line = tmp; strcat(line, buf); *)
          line ← strcat tmp buf;
          (* while (buf[126] != 0 && buf[126] != '\n'); *)
          flag ← load buf 126;
          if negb (Byte.eqb flag NUL) && negb (Byte.eqb flag LF)
          then read_line_loop pf fuel' buf osize (Some line) st
          else Done (line, st)
      end
  end.

(** [char *hxfile_read_line(FILE *stream)]. The result is the block
    returned ([None] for [NULL]) and the stream afterwards. *)
Definition hxfile_read_line (pf : platform) (stream : option FILE)
  : outcome (option (list byte) * option FILE) :=
  match stream with
  | None => Done (None, None)                  (* if (!stream) return NULL; *)
  | Some st =>
      (* char c = getc(stream); *)
      let '(i, st) := getc st in
      let c := to_char pf i in
      (* if (c == EOF) return NULL; *)
      if c =? EOF then Done (None, Some st)
      else
        (* ungetc(c, stream); *)
        let st := ungetc c st in
        (* char buf[128]; size_t osize = 0; char *line = NULL; *)
        '(line, st) ← read_line_loop pf (S (length (unread st))) (fresh pf 128) 0 None st;
        Done (Some line, Some st)
  end.

(** The line a call returned, as the C string the caller reads. *)
Definition returned_line (r : outcome (option (list byte) * option FILE))
  : option (list byte) :=
  match r with
  | Done (Some blk, _) => Some (c_str blk)
  | _ => None
  end.

(** Two concrete platforms, for the examples. *)
Definition x86_64 : platform :=
  {| char_signed := true; malloc_max := 2 ^ 47; sizeof_ptr := 8;
     indeterminate := fun k => Z_to_byte (Z.of_nat k * 37 + 10) |}.

Definition aarch64 : platform :=
  {| char_signed := false; malloc_max := 2 ^ 47; sizeof_ptr := 8;
     indeterminate := fun k => Z_to_byte (Z.of_nat k * 37 + 10) |}.

(** ** The file system and [<stdio.h>] on it *)

(** The calls made on the file system, oldest first. *)
Inductive event :=
| Fopen (path mode : string) (ok : bool)
| Fread (n : nat)
| Fputs (path : string) (data : list byte)
| Fclose.

(** The files that exist, with their contents; the paths that cannot be
    opened for writing; the calls made so far. Text and binary streams
    are the same (POSIX): no newline translation. *)
Record world := {
  files : gmap string (list byte);
  locked : gset string;
  trace : list event
}.

Definition log (e : event) (w : world) : world :=
  {| files := files w; locked := locked w; trace := trace w ++ [e] |}.

Definition set_file (path : string) (c : list byte) (w : world) : world :=
  {| files := <[path := c]> (files w); locked := locked w; trace := trace w |}.

(** The content of [path], empty when there is no such file. *)
Definition content (w : world) (path : string) : list byte :=
  default [] (files w !! path).

(** [fopen(path, mode)]: ["r..."] needs the file to exist; ["w..."]
    creates or truncates it, ["a..."] creates or keeps it, both unless
    the path cannot be written; any other mode fails. *)
Definition fopen (w : world) (path mode : string) : option FILE * world :=
  match mode with
  | String "r"%char _ =>
      match files w !! path with
      | Some c => (Some (InStream [] c), log (Fopen path mode true) w)
      | None => (None, log (Fopen path mode false) w)
      end
  | String "w"%char _ =>
      if decide (path ∈ locked w) then (None, log (Fopen path mode false) w)
      else (Some (OutStream path), log (Fopen path mode true) (set_file path [] w))
  | String "a"%char _ =>
      if decide (path ∈ locked w) then (None, log (Fopen path mode false) w)
      else (Some (OutStream path),
            log (Fopen path mode true) (set_file path (content w path) w))
  | _ => (None, log (Fopen path mode false) w)
  end.

(** [fseek(stream, 0, SEEK_END)]. *)
Definition fseek_end (st : FILE) : FILE :=
  match st with
  | InStream behind ahead => InStream (behind ++ ahead) []
  | OutStream _ => st
  end.

(** [fseek(stream, 0, SEEK_SET)]. *)
Definition fseek_set (st : FILE) : FILE :=
  match st with
  | InStream behind ahead => InStream [] (behind ++ ahead)
  | OutStream _ => st
  end.

(** [ftell(stream)]. *)
Definition ftell (st : FILE) (w : world) : nat :=
  match st with
  | InStream behind _ => length behind
  | OutStream path => length (content w path)
  end.

(** [fread(dst, 1, count, stream)]: stores the bytes read at the start of
    [dst] and returns how many there are. *)
Definition fread (dst : list byte) (count : nat) (st : FILE) (w : world)
  : outcome (nat * list byte * FILE * world) :=
  match st with
  | InStream behind ahead =>
      let got := take count ahead in
      if decide (length got <= length dst)%nat
      then Done (length got, got ++ drop (length got) dst,
                 InStream (behind ++ got) (drop count ahead),
                 log (Fread (length got)) w)
      else Fault (OutOfBounds (Z.of_nat (length dst)))
  | OutStream _ => Done (0%nat, dst, st, log (Fread 0) w)
  end.

(** [fputs(text, stream)]: writes the characters of the C string [text],
    without its terminator. *)
Definition fputs (text : list byte) (st : FILE) (w : world) : outcome world :=
  n ← strlen text;
  match st with
  | OutStream path =>
      Done (log (Fputs path (take n text))
              (set_file path (content w path ++ take n text) w))
  | InStream _ _ => Done w        (* not open for writing: fails *)
  end.

(** [fclose(stream)]. *)
Definition fclose (st : FILE) (w : world) : world := log Fclose w.

(** ** Whole-file read and write *)

(** [static char* read(const char* filepath, const char* options)]. *)
Definition read (pf : platform) (w : world) (filepath options : option string)
  : outcome (option (list byte) * world) :=
  match filepath, options with
  | Some path, Some mode =>
      (* FILE *stream = fopen(filepath, options); *)
      let '(stream, w) := fopen w path mode in
      match stream with
      | None => Done (None, w)               (* if (!stream) return NULL; *)
      | Some st =>
          let st := fseek_end st in          (* fseek(stream, 0, SEEK_END); *)
          let size := ftell st w in          (* size_t size = ftell(stream); *)
          let st := fseek_set st in          (* fseek(stream, 0, SEEK_SET); *)
          (* char* str = malloc(size + 1); *)
          match malloc pf (size + 1) with
          | None =>
              (* str[readc] = 0 with str null *)
              Fault NullDeref
          | Some str =>
              (* size_t readc = fread(str, sizeof(char), size, stream); *)
              '(readc, str, st, w) ← fread str size st w;
              (* str[readc] = 0; *)
              str ← store str readc NUL;
              (* fclose(stream); return str; *)
              Done (Some str, fclose st w)
          end
      end
  | _, _ => Done (None, w)   (* if (!filepath || !options) return NULL; *)
  end.

Definition hxfile_read (pf : platform) (w : world) (filepath : option string) :=
  read pf w filepath (Some "r"%string).

Definition hxfile_read_raw (pf : platform) (w : world) (filepath : option string) :=
  read pf w filepath (Some "rb"%string).

(** [static bool write(const char *filepath, const char *text,
    const char *options)]; [text] is the object the pointer points into,
    from the pointer on. *)
Definition write (w : world) (filepath : option string)
    (text : option (list byte)) (options : option string)
  : outcome (bool * world) :=
  match filepath, text, options with
  | Some path, Some text, Some mode =>
      (* FILE *stream = fopen(filepath, options); *)
      let '(stream, w) := fopen w path mode in
      match stream with
      | None => Done (false, w)              (* if (!stream) return false; *)
      | Some st =>
          w ← fputs text st w;               (* fputs(text, stream); *)
          Done (true, fclose st w)           (* fclose(stream); return true; *)
      end
  | _, _, _ => Done (false, w)
  end.

Definition hxfile_write (w : world) (filepath : option string)
    (text : option (list byte)) :=
  write w filepath text (Some "w"%string).

Definition hxfile_write_raw (w : world) (filepath : option string)
    (text : option (list byte)) :=
  write w filepath text (Some "wb"%string).

Definition hxfile_append (w : world) (filepath : option string)
    (text : option (list byte)) :=
  write w filepath text (Some "a"%string).

Definition hxfile_append_raw (w : world) (filepath : option string)
    (data : option (list byte)) :=
  write w filepath data (Some "ab"%string).

(** ** [strtok] *)

Definition is_delim (delim : list byte) (b : byte) : bool :=
  existsb (Byte.eqb b) delim.

(** [strspn(s, delim)]: the length of the leading run of delimiters. *)
Fixpoint strspn (s delim : list byte) : nat :=
  match s with
  | b :: s' => if is_delim delim b then S (strspn s' delim) else 0%nat
  | [] => 0%nat
  end.

(** [strpbrk(s, delim)]: [inl k] when the first delimiter of the string is
    at offset [k], [inr n] when there is none and the terminator is at
    offset [n]; [None] when the string is not terminated in its object. *)
Fixpoint strpbrk (s delim : list byte) : option (nat + nat) :=
  match s with
  | [] => None
  | b :: s' =>
      if Byte.eqb b NUL then Some (inr 0%nat)
      else if is_delim delim b then Some (inl 0%nat)
      else sum_map S S <$> strpbrk s' delim
  end.

(** [strtok(s, delim)] on the object [m]; [s] and the result are offsets
    into [m], [olds] is the function's saved position. The result is the
    token (or null), the object, where the token's delimiter has been
    overwritten with a terminator, and the new saved position. *)
Definition strtok (m : list byte) (s : option nat) (delim : list byte) (olds : nat)
  : outcome (option nat * list byte * nat) :=
  let s := default olds s in
  let s := (s + strspn (drop s m) delim)%nat in
  c ← load m (Z.of_nat s);
  if Byte.eqb c NUL then Done (None, m, s)
  else
    match strpbrk (drop s m) delim with
    | None => Fault (OutOfBounds (Z.of_nat (length m)))
    | Some (inl k) =>
        m ← store m (s + k) NUL;
        Done (Some s, m, (s + k + 1)%nat)
    | Some (inr n) => Done (Some s, m, (s + n)%nat)
    end.

(** ** [hxfile_read_lines] *)

(** An element of the array of [char*] the function returns. *)
Inductive slot :=
| Unset              (* never assigned *)
| Null               (* the null pointer *)
| Tok (off : nat).   (* a pointer to offset [off] of the text *)

Definition slot_of (tok : option nat) : slot :=
  match tok with
  | Some off => Tok off
  | None => Null
  end.

(** What the caller receives: the array [out] and the text its elements
    point into. *)
Record lines := { out : list slot; text : list byte }.

(** [out[i] = p]. *)
Definition store_slot (out : list slot) (i : nat) (p : slot) : outcome (list slot) :=
  if decide (i < length out)%nat then Done (<[i := p]> out)
  else Fault (OutOfBounds (Z.of_nat i)).

(** [while ( *pos) { if ( *pos++ == '\n') ++linec; }] (lines 143-146);
    [pos] is an offset from [text]. *)
Fixpoint count_loop (fuel : nat) (text : list byte) (pos : Z) (linec : nat)
  : outcome (Z * nat) :=
  match fuel with
  | O => Fault OutOfFuel
  | S fuel' =>
      c ← load text pos;
      if Byte.eqb c NUL then Done (pos, linec)
      else
        c ← load text pos;
        count_loop fuel' text (pos + 1) (if Byte.eqb c LF then S linec else linec)
  end.

(** [for (size_t i = 1; i < linec; ++i) out[i] = strtok(NULL, "\n");]
    (lines 157-160). *)
Fixpoint fill_loop (fuel : nat) (i linec : nat) (out : list slot)
    (text : list byte) (olds : nat) : outcome (list slot * list byte * nat) :=
  match fuel with
  | O => Fault OutOfFuel
  | S fuel' =>
      if (i <? linec)%nat then
        '(tok, text, olds) ← strtok text None [LF] olds;
        out ← store_slot out i (slot_of tok);
        fill_loop fuel' (S i) linec out text olds
      else Done (out, text, olds)
  end.

(** [char **hxfile_read_lines(const char *filepath)]. *)
Definition hxfile_read_lines (pf : platform) (w : world) (filepath : option string)
  : outcome (option lines * world) :=
  (* char* text = hxfile_read(filepath); if (!text) return NULL; *)
  '(text, w) ← hxfile_read pf w filepath;
  match text with
  | None => Done (None, w)
  | Some text =>
      (* const char* pos = text; size_t linec = 0; while ... *)
      '(pos, linec) ← count_loop (S (length text)) text 0 0;
      (* if ( *(pos - 1) != '\n' && pos > text) ++linec; *)
      c ← load text (pos - 1);
      let linec := if negb (Byte.eqb c LF) && (pos >? 0) then S linec else linec in
      (* char **out = (char** )malloc((linec + 1) * sizeof(char* )); *)
      match malloc pf ((linec + 1) * sizeof_ptr pf) with
      | None => Fault NullDeref            (* out[0] = ... with out null *)
      | Some _ =>
          let out := replicate (linec + 1) Unset in
          (* out[0] = strtok(text, "\n"); *)
          '(tok, text, olds) ← strtok text (Some 0%nat) [LF] 0;
          out ← store_slot out 0 (slot_of tok);
          '(out, text, _) ← fill_loop (S linec) 1 linec out text olds;
          (* out[linec] = NULL; *)
          out ← store_slot out linec Null;
          Done (Some {| out := out; text := text |}, w)
      end
  end.

(** The sequence of lines the caller reads from the result: the strings
    the elements point to, up to the first null pointer. *)
Fixpoint strings_of (text : list byte) (out : list slot) : list (list byte) :=
  match out with
  | Tok off :: out' => c_str_at text off :: strings_of text out'
  | _ => []
  end.

Definition lines_of (r : lines) : list (list byte) := strings_of (text r) (out r).

(** The lines put together again, one newline between two lines. *)
Fixpoint join (sep : byte) (ls : list (list byte)) : list byte :=
  match ls with
  | [] => []
  | [l] => l
  | l :: ls' => l ++ sep :: join sep ls'
  end.

(** What "splitting [B] into lines" is on the code: [hxfile_read_lines]
    on a file whose content is [B]. *)
Definition world_with (path : string) (B : list byte) : world :=
  {| files := {[ path := B ]}; locked := ∅; trace := [] |}.

Definition split_lines (pf : platform) (B : list byte) : outcome (option lines) :=
  fst <$> hxfile_read_lines pf (world_with "in.txt" B) (Some "in.txt"%string).

(** A platform on which [malloc] cannot give more than four bytes. *)
Definition small_heap : platform :=
  {| char_signed := true; malloc_max := 4; sizeof_ptr := 8;
     indeterminate := fun _ => x00 |}.

(** ** Notions used in the statements *)

(** The block that holds the string [acc] in a fresh object of [osize]
    bytes: the characters, the terminator, and what the object held
    before. *)
Definition block_of (pf : platform) (osize : nat) (acc : list byte) : list byte :=
  acc ++ NUL :: drop (length acc + 1) (fresh pf osize).

(** [line] is null and nothing has been accumulated, or it points to a
    block of [osize] bytes that holds the string [acc]. *)
Definition accumulated (pf : platform) (osize : nat)
    (line : option (list byte)) (acc : list byte) : Prop :=
  (NUL ∉ acc) /\
  match line with
  | None => acc = []
  | Some blk => blk = block_of pf osize acc /\ (length acc < osize)%nat
  end.

(** The loop condition [buf[126] != 0 && buf[126] != '\n']. *)
Definition chunk_incomplete (buf : list byte) : bool :=
  let flag := default NUL (buf !! 126%nat) in
  negb (Byte.eqb flag NUL) && negb (Byte.eqb flag LF).

(** A newline occurs in [s] at its last position only. *)
Definition lf_only_last (s : list byte) : Prop :=
  forall i : nat, s !! i = Some LF -> S i = length s.

(** The stream has no byte left. *)
Definition at_eof (st : FILE) : Prop := unread st = [].

(** The call returned [NULL]. *)
Definition absent {A B : Type} (r : outcome (option A * B)) : Prop :=
  exists b, r = Done (None, b).

(** The bytes [hxfile_read_line] returns after an unterminated last line
    [l]: when the line fills whole chunks of 127 bytes, the first 126
    bytes of its last chunk; nothing otherwise. *)
Definition repeated_tail (l : list byte) : list byte :=
  if (length l mod 127 =? 0)%nat then take 126 (drop (length l - 127) l) else [].

(** The segments of [B] between its newlines. *)
Fixpoint segments (B : list byte) : list (list byte) :=
  match B with
  | [] => [[]]
  | b :: B' =>
      if Byte.eqb b LF then [] :: segments B'
      else match segments B' with
           | s :: ss => (b :: s) :: ss
           | [] => [[b]]
           end
  end.

(** The segments that are not empty, each with the offset at which it
    starts, for segments that start at offset [p]. *)
Fixpoint tokens_at (p : nat) (ss : list (list byte)) : list (nat * list byte) :=
  match ss with
  | [] => []
  | [] :: ss' => tokens_at (S p) ss'
  | s :: ss' => (p, s) :: tokens_at (p + length s + 1) ss'
  end.

Definition nonempty (s : list byte) : bool :=
  match s with
  | [] => false
  | _ => true
  end.

(** The number of newlines of [B]. *)
Fixpoint count_lf (B : list byte) : nat :=
  match B with
  | [] => 0
  | b :: B' => ((if Byte.eqb b LF then 1 else 0) + count_lf B')%nat
  end.

(** The number of lines lines 143-148 count in a non-empty [B]. *)
Definition line_count (B : list byte) : nat :=
  (count_lf B + match last B with
                | Some b => if Byte.eqb b LF then 0 else 1
                | None => 0
                end)%nat.

(** [n] calls [strtok(NULL, "\n")] in a row: the results, the text and the
    saved position afterwards. *)
Fixpoint strtok_n (n : nat) (text : list byte) (olds : nat)
  : outcome (list (option nat) * list byte * nat) :=
  match n with
  | O => Done ([], text, olds)
  | S n' =>
      '(tok, text, olds) ← strtok text None [LF] olds;
      '(toks, text, olds) ← strtok_n n' text olds;
      Done (tok :: toks, text, olds)
  end.

(** What [n] calls of [strtok] return when the tokens still to be found
    are [tl]: their offsets, then null pointers. *)
Fixpoint expect (n : nat) (tl : list (nat * list byte)) : list (option nat) :=
  match n with
  | O => []
  | S n' =>
      match tl with
      | [] => None :: expect n' []
      | (o, _) :: tl' => Some o :: expect n' tl'
      end
  end.

(** ** [hxfile_free_lines] *)

(** [void hxfile_free_lines(char **lines)], that is [free( *lines);
    free(lines);]. The result is the pointer [*lines] that is passed to
    [free] before the array itself is. *)
Definition hxfile_free_lines (lines : option lines) : outcome slot :=
  match lines with
  | None => Fault NullDeref                  (* *lines with lines null *)
  | Some r =>
      match out r with
      | p :: _ => Done p
      | [] => Fault (OutOfBounds 0)
      end
  end.

(** ** A caller of [hxfile_read_line] *)

(** The loop [while ((line = hxfile_read_line(stream))) ...]: the strings
    returned up to the first null result, and the stream afterwards. *)
Fixpoint read_all_lines (pf : platform) (fuel : nat) (stream : option FILE)
  : outcome (list (list byte) * option FILE) :=
  match fuel with
  | O => Fault OutOfFuel
  | S fuel' =>
      '(line, stream) ← hxfile_read_line pf stream;
      match line with
      | None => Done ([], stream)
      | Some blk =>
          '(ls, stream) ← read_all_lines pf fuel' stream;
          Done (c_str blk :: ls, stream)
      end
  end.

(** The content of a text whose lines are [ls], a newline after each. *)
Definition unlines (ls : list (list byte)) : list byte :=
  concat (map (fun l => l ++ [LF]) ls).

(** A line of text that [hxfile_read_line] can return as it is: no zero
    byte, no newline, and a first byte that the peek does not take for
    [EOF]. *)
Definition text_line (pf : platform) (l : list byte) : Prop :=
  (NUL ∉ l) /\ (LF ∉ l) /\ (char_signed pf = true -> head l ≠ Some xff).

(** ** Files that are not ordinary files *)

(** [read] measures the file with [fseek] and [ftell] and reads it with
    one [fread], and tests the result of none of the three. For an
    ordinary file the position at the end is the length and one [fread]
    delivers all of it: that is [ftell] and [fread] above. A path can
    also name a file whose position at the end is not the number of bytes
    its stream delivers: an entry of /proc reports 0, an attribute file of
    /sys reports a page. [Sized n] is such a file, [n] being what [ftell]
    returns after the seek to the end. *)
Inductive file_kind :=
| Ordinary
| Sized (reported : nat).

(** [ftell(stream)] at the end of a file of kind [k]. *)
Definition ftell_any (k : file_kind) (st : FILE) (w : world) : nat :=
  match k with
  | Ordinary => ftell st w
  | Sized reported => reported
  end.

(** [read] (lines 59-80) on a file system whose files are of the kinds
    [kinds]: the same statements, with [ftell] answering for the kind of
    the file opened. The seek to the end and the seek back leave the
    stream at its start whatever the end is. *)
Definition read_any (kinds : string -> file_kind) (pf : platform) (w : world)
    (filepath options : option string)
  : outcome (option (list byte) * world) :=
  match filepath, options with
  | Some path, Some mode =>
      (* FILE *stream = fopen(filepath, options); *)
      let '(stream, w) := fopen w path mode in
      match stream with
      | None => Done (None, w)               (* if (!stream) return NULL; *)
      | Some st =>
          let st := fseek_end st in          (* fseek(stream, 0, SEEK_END); *)
          (* size_t size = ftell(stream); *)
          let size := ftell_any (kinds path) st w in
          let st := fseek_set st in          (* fseek(stream, 0, SEEK_SET); *)
          (* char* str = malloc(size + 1); *)
          match malloc pf (size + 1) with
          | None =>
              (* str[readc] = 0 with str null *)
              Fault NullDeref
          | Some str =>
              (* size_t readc = fread(str, sizeof(char), size, stream); *)
              '(readc, str, st, w) ← fread str size st w;
              (* str[readc] = 0; *)
              str ← store str readc NUL;
              (* fclose(stream); return str; *)
              Done (Some str, fclose st w)
          end
      end
  | _, _ => Done (None, w)   (* if (!filepath || !options) return NULL; *)
  end.

(** [hxfile_read] and [hxfile_read_raw] (lines 83-92) on such files. *)
Definition hxfile_read_any (kinds : string -> file_kind) (pf : platform)
    (w : world) (filepath : option string) :=
  read_any kinds pf w filepath (Some "r"%string).

Definition hxfile_read_raw_any (kinds : string -> file_kind) (pf : platform)
    (w : world) (filepath : option string) :=
  read_any kinds pf w filepath (Some "rb"%string).

(** A file system where one path names an entry of /proc and every other
    path an ordinary file. *)
Definition proc_ostype : string := "/proc/sys/kernel/ostype".

Definition with_proc (path : string) : file_kind :=
  if decide (path = proc_ostype) then Sized 0 else Ordinary.

(** ** Tactics *)

(** After [buf[126] = 0] the array has its 128 bytes and a zero flag
    byte. *)
Ltac flag_reset buf Hbuf Hlen Hflag :=
  assert (length (<[126%nat:=NUL]> buf) = 128%nat) as Hlen
    by (by rewrite length_insert);
  assert ((<[126%nat:=NUL]> buf) !! 126%nat = Some NUL) as Hflag
    by (apply list_lookup_insert_eq; lia).

(** * Properties *)

(** ** Bytes *)

Lemma byte_eqb_true (a b : byte) : Byte.eqb a b = true <-> a = b.
Proof. split; [apply byte_dec_bl | apply byte_dec_lb]. Qed.

Lemma byte_eqb_false (a b : byte) : Byte.eqb a b = false <-> a ≠ b.
Proof.
  rewrite <- byte_eqb_true. destruct (Byte.eqb a b); split; congruence.
Qed.

Lemma byte_to_Z_range (b : byte) : 0 <= byte_to_Z b < 256.
Proof. unfold byte_to_Z. pose proof (Byte.to_N_bounded b). lia. Qed.

Lemma Z_to_byte_to_Z (b : byte) : Z_to_byte (byte_to_Z b) = b.
Proof.
  unfold Z_to_byte. pose proof (byte_to_Z_range b) as Hr.
  rewrite Z.mod_small by lia. unfold byte_to_Z.
  rewrite N2Z.id, Byte.of_to_N. reflexivity.
Qed.

(** ** C strings *)

Section c_strings.
Implicit Types l r s m dst : list byte.

Lemma find_nul_app l r : NUL ∉ l -> find_nul (l ++ NUL :: r) = Some (length l).
Proof.
  induction l as [|b l IH]; intros Hl; simpl; [reflexivity|].
  apply not_elem_of_cons in Hl as [Hb Hl].
  apply not_eq_sym, byte_eqb_false in Hb. rewrite Hb, (IH Hl). reflexivity.
Qed.

Lemma find_nul_split s n :
  find_nul s = Some n -> (NUL ∉ take n s) /\ s = take n s ++ NUL :: drop (S n) s.
Proof.
  revert n. induction s as [|b s IH]; intros n; simpl; [discriminate|].
  destruct (Byte.eqb b NUL) eqn:Hb.
  - intros [= <-]. apply byte_eqb_true in Hb as ->. simpl.
    split; [apply not_elem_of_nil | by rewrite drop_0].
  - destruct (find_nul s) as [k|] eqn:Hk; simpl; [|discriminate].
    intros [= <-]. destruct (IH k eq_refl) as [Hn Hs]. simpl. split.
    + apply not_elem_of_cons. split; [|exact Hn].
      apply byte_eqb_false in Hb. congruence.
    + f_equal. exact Hs.
Qed.

Lemma find_nul_elem s : NUL ∈ s -> is_Some (find_nul s).
Proof.
  induction s as [|b s IH]; intros Hin; [by apply elem_of_nil in Hin|].
  simpl. destruct (Byte.eqb b NUL) eqn:Hb; [by eexists|].
  apply elem_of_cons in Hin as [Heq|Hin].
  - apply byte_eqb_false in Hb. congruence.
  - destruct (IH Hin) as [k ->]. by eexists.
Qed.

Lemma c_str_app l r : NUL ∉ l -> c_str (l ++ NUL :: r) = l.
Proof.
  intros Hl. unfold c_str, c_str_at. rewrite drop_0, (find_nul_app _ _ Hl).
  by rewrite take_app_length.
Qed.

(** A string that has a terminator is its characters, the terminator,
    and a rest. *)
Lemma c_str_split m : NUL ∈ m -> ∃ r, m = c_str m ++ NUL :: r /\ NUL ∉ c_str m.
Proof.
  intros Hin. destruct (find_nul_elem _ Hin) as [n Hn].
  destruct (find_nul_split _ _ Hn) as [Hfree Hs].
  exists (drop (S n) m). unfold c_str, c_str_at. rewrite drop_0, Hn. by split.
Qed.

Lemma strlen_app l r : NUL ∉ l -> strlen (l ++ NUL :: r) = Done (length l).
Proof. intros Hl. unfold strlen. by rewrite (find_nul_app _ _ Hl). Qed.

Lemma strcpy_app dst l r :
  NUL ∉ l -> (length l + 1 <= length dst)%nat ->
  strcpy dst (l ++ NUL :: r) = Done (l ++ NUL :: drop (length l + 1) dst).
Proof.
  intros Hl Hfit. unfold strcpy. rewrite (strlen_app _ _ Hl). simpl.
  rewrite decide_True by exact Hfit. f_equal.
  rewrite (take_app_ge l) by lia.
  replace (length l + 1 - length l)%nat with 1%nat by lia. simpl.
  rewrite take_0. by rewrite <- app_assoc.
Qed.

Lemma strcat_app a t l r :
  NUL ∉ a -> NUL ∉ l -> (length l <= length t)%nat ->
  strcat (a ++ NUL :: t) (l ++ NUL :: r) = Done ((a ++ l) ++ NUL :: drop (length l) t).
Proof.
  intros Ha Hl Hfit. unfold strcat.
  rewrite (strlen_app _ _ Ha). simpl. rewrite (strlen_app _ _ Hl). simpl.
  rewrite decide_True by (rewrite length_app; simpl; lia). f_equal.
  rewrite take_app_length.
  rewrite (take_app_ge l) by lia.
  replace (length l + 1 - length l)%nat with 1%nat by lia. simpl. rewrite take_0.
  rewrite drop_app_ge by lia.
  replace (length a + length l + 1 - length a)%nat with (S (length l)) by lia.
  simpl. by rewrite <- !app_assoc.
Qed.
End c_strings.

(** ** [fgets] *)

Section fgets_facts.
Implicit Types c r s l buf : list byte.

Lemma fgets_take_app n s c r :
  fgets_take n s = (c, r) -> s = c ++ r /\ (length c <= n)%nat.
Proof.
  revert s c r. induction n as [|n IH]; intros [|b s] c r; simpl;
    try (intros [= <- <-]; simpl; split; [reflexivity | lia]).
  destruct (Byte.eqb b LF).
  - intros [= <- <-]. simpl. split; [reflexivity | lia].
  - destruct (fgets_take n s) as [c' r'] eqn:Hc. intros [= <- <-].
    destruct (IH _ _ _ Hc) as [-> Hlen]. simpl. split; [reflexivity | lia].
Qed.

(** [fgets] stops after a newline: one can only be the last byte taken. *)
Lemma fgets_take_lf n s c r :
  fgets_take n s = (c, r) -> lf_only_last c.
Proof.
  revert s c r. induction n as [|n IH]; intros [|b s] c r; simpl;
    try (intros [= <- <-] i Hi; by rewrite lookup_nil in Hi).
  destruct (Byte.eqb b LF) eqn:Hb.
  - intros [= <- <-] [|i] Hi; [reflexivity | by rewrite lookup_cons, lookup_nil in Hi].
  - destruct (fgets_take n s) as [c' r'] eqn:Hc. intros [= <- <-] [|i] Hi.
    + simpl in Hi. injection Hi as ->. by rewrite byte_dec_lb in Hb.
    + simpl in *. f_equal. by apply (IH _ _ _ Hc).
Qed.

(** A line that fits is taken whole, with its newline. *)
Lemma fgets_take_line n l rest :
  LF ∉ l -> (length l < n)%nat ->
  fgets_take n (l ++ LF :: rest) = (l ++ [LF], rest).
Proof.
  revert n. induction l as [|b l IH]; intros [|n] Hl Hn; simpl in *; try lia.
  - reflexivity.
  - apply not_elem_of_cons in Hl as [Hb Hl].
    apply not_eq_sym, byte_eqb_false in Hb. rewrite Hb.
    rewrite (IH n Hl) by lia. reflexivity.
Qed.

(** Without a newline among the next [n] bytes, exactly those are taken. *)
Lemma fgets_take_full n s :
  LF ∉ take n s -> (n <= length s)%nat ->
  fgets_take n s = (take n s, drop n s).
Proof.
  revert s. induction n as [|n IH]; intros [|b s] Hl Hn; simpl in *; try lia;
    try reflexivity.
  apply not_elem_of_cons in Hl as [Hb Hl].
  apply not_eq_sym, byte_eqb_false in Hb. rewrite Hb.
  rewrite (IH s Hl) by lia. reflexivity.
Qed.

(** Up to the end of the stream, when that comes first. *)
Lemma fgets_take_eof n s :
  LF ∉ s -> (length s <= n)%nat -> fgets_take n s = (s, []).
Proof.
  revert s. induction n as [|n IH]; intros [|b s] Hl Hn; simpl in *; try lia;
    try reflexivity.
  apply not_elem_of_cons in Hl as [Hb Hl].
  apply not_eq_sym, byte_eqb_false in Hb. rewrite Hb.
  rewrite (IH s Hl) by lia. reflexivity.
Qed.

(** After [buf[126] = 0] and [fgets], the array still has its 128 bytes
    and holds a terminated string. *)
Lemma fgets_buf buf st ok buf' st' :
  length buf = 128%nat -> buf !! 126%nat = Some NUL ->
  fgets buf 128 st = (ok, buf', st') ->
  length buf' = 128%nat /\ NUL ∈ buf'.
Proof.
  intros Hlen H126. unfold fgets.
  destruct st as [behind [|b ahead]|path];
    try (intros [= <- <- <-]; split; [exact Hlen | by eapply list_elem_of_lookup_2]).
  destruct (fgets_take (128 - 1) (b :: ahead)) as [c rest] eqn:Hc.
  intros [= <- <- <-]. apply fgets_take_app in Hc as [_ Hc]. split.
  - rewrite length_app. simpl. rewrite length_drop. lia.
  - apply elem_of_app. right. apply elem_of_cons. by left.
Qed.
End fgets_facts.

(** ** One iteration of the loop of [hxfile_read_line] *)

Section read_line_step.
Variable pf : platform.
Implicit Types acc buf blk : list byte.

Lemma store_inside (m : list byte) (off : nat) (b : byte) :
  (off < length m)%nat -> store m off b = Done (<[off := b]> m).
Proof. intros H. unfold store. by rewrite decide_True. Qed.

Lemma length_fresh n : length (fresh pf n) = n.
Proof. unfold fresh. by rewrite length_map, length_seq. Qed.

(** [strcpy(tmp, line)], or [tmp[0] = 0] when [line] is null: the new
    block holds what was accumulated. *)
Lemma copy_accumulated osize osize' line acc :
  accumulated pf osize line acc -> (osize < osize')%nat ->
  match line with
  | Some l => strcpy (fresh pf osize') l
  | None => store (fresh pf osize') 0 NUL
  end = Done (block_of pf osize' acc).
Proof.
  intros [Hfree Hline] Hlt. destruct line as [blk|].
  - destruct Hline as [-> Hacc]. unfold block_of at 1.
    rewrite strcpy_app; [reflexivity | exact Hfree | rewrite length_fresh; lia].
  - subst acc. rewrite store_inside by (rewrite length_fresh; lia).
    f_equal. unfold block_of. simpl.
    destruct (fresh pf osize') as [|b t] eqn:Hf; [|reflexivity].
    apply (f_equal length) in Hf. rewrite length_fresh in Hf. simpl in Hf. lia.
Qed.

(** [strcat(line, buf)] appends the string in [buf]. *)
Lemma strcat_block_of osize acc s r :
  NUL ∉ acc -> NUL ∉ s -> (length acc + length s < osize)%nat ->
  strcat (block_of pf osize acc) (s ++ NUL :: r) = Done (block_of pf osize (acc ++ s)).
Proof.
  intros Hacc Hs Hfit. unfold block_of at 1.
  rewrite strcat_app; [| exact Hacc | exact Hs | rewrite length_drop, length_fresh; lia].
  f_equal. unfold block_of. rewrite drop_drop, length_app.
  do 3 f_equal. lia.
Qed.

(** The body of the loop, on a state in which [acc] is accumulated. *)
Lemma read_line_loop_step fuel buf osize line acc st :
  length buf = 128%nat ->
  accumulated pf osize line acc -> (length acc <= osize)%nat ->
  read_line_loop pf (S fuel) buf osize line st =
    let '(_, buf', st') := fgets (<[126%nat := NUL]> buf) 128 st in
    let acc' := acc ++ c_str buf' in
    let osize' := (osize + (length (c_str buf') + 1))%nat in
    if (N.of_nat osize' <=? malloc_max pf)%N then
      if chunk_incomplete buf'
      then read_line_loop pf fuel buf' osize' (Some (block_of pf osize' acc')) st'
      else Done (block_of pf osize' acc', st')
    else Fault NullDeref.
Proof.
  intros Hlen Hacc Hle. cbn [read_line_loop].
  rewrite (store_inside buf 126) by lia. cbn [mbind outcome_bind].
  destruct (fgets (<[126%nat:=NUL]> buf) 128 st) as [[ok buf'] st'] eqn:Hf.
  apply fgets_buf in Hf as [Hlen' Hnul];
    [| by rewrite length_insert | apply list_lookup_insert_eq; lia].
  destruct (c_str_split _ Hnul) as (r & Hbuf & Hfree).
  set (s := c_str buf') in *.
  rewrite Hbuf at 1. rewrite (strlen_app _ _ Hfree). cbn [mbind outcome_bind].
  rewrite Nat.mul_1_r. unfold malloc.
  destruct (N.of_nat (osize + (length s + 1)) <=? malloc_max pf)%N; [|reflexivity].
  rewrite (copy_accumulated osize _ line acc Hacc) by lia. cbn [mbind outcome_bind].
  rewrite Hbuf at 1. rewrite strcat_block_of;
    [| apply Hacc | exact Hfree | lia].
  cbn [mbind outcome_bind].
  unfold load. simpl (126 <? 0). cbv iota.
  change (Z.to_nat 126) with 126%nat. unfold chunk_incomplete.
  destruct (buf' !! 126%nat) as [flag|] eqn:Hflag.
  - reflexivity.
  - apply lookup_ge_None in Hflag. lia.
Qed.

Lemma accumulated_step osize acc s :
  NUL ∉ acc -> NUL ∉ s -> (length acc <= osize)%nat ->
  accumulated pf (osize + (length s + 1)) (Some (block_of pf (osize + (length s + 1)) (acc ++ s)))
    (acc ++ s).
Proof.
  intros Hacc Hs Hle. split.
  - by apply not_elem_of_app.
  - split; [reflexivity | rewrite length_app; lia].
Qed.
End read_line_step.

(** ** The peek of [hxfile_read_line] (lines 171-175) *)

Section peek.
Variable pf : platform.

(** [c == EOF] holds for a byte that was read exactly when [char] is
    signed and the byte is 0xFF. *)
Lemma to_char_eof (b : byte) :
  to_char pf (byte_to_Z b) = EOF <-> char_signed pf = true /\ b = xff.
Proof.
  pose proof (byte_to_Z_range b) as Hr. unfold to_char, EOF.
  destruct (char_signed pf); split.
  - intros H. split; [reflexivity|].
    assert (byte_to_Z b = 255) as Hb.
    { destruct (Z_lt_le_dec (byte_to_Z b) 128).
      - rewrite Z.mod_small in H by lia. lia.
      - replace (byte_to_Z b + 128) with (byte_to_Z b - 128 + 1 * 256) in H by lia.
        rewrite Z.mod_add, Z.mod_small in H by lia. lia. }
    rewrite <- (Z_to_byte_to_Z b), Hb. reflexivity.
  - intros [_ ->]. reflexivity.
  - intros H. pose proof (Z.mod_pos_bound (byte_to_Z b) 256). lia.
  - intros [? _]. discriminate.
Qed.

(** [ungetc] gets the byte back from the [char]. *)
Lemma Z_to_byte_to_char (b : byte) : Z_to_byte (to_char pf (byte_to_Z b)) = b.
Proof.
  rewrite <- (Z_to_byte_to_Z b) at 2. unfold Z_to_byte, to_char.
  destruct (char_signed pf); [|by rewrite Z.mod_mod].
  do 3 f_equal.
  rewrite Zminus_mod, Z.mod_mod, <- Zminus_mod by lia. f_equal. lia.
Qed.

(** When the first byte is not taken for [EOF], the stream is as before. *)
Lemma peek_restores behind (b : byte) ahead :
  to_char pf (byte_to_Z b) ≠ EOF ->
  ungetc (to_char pf (byte_to_Z b)) (getc (InStream behind (b :: ahead))).2
  = InStream behind (b :: ahead).
Proof.
  intros Hne. simpl. unfold ungetc.
  apply Z.eqb_neq in Hne. rewrite Hne.
  by rewrite removelast_last, Z_to_byte_to_char.
Qed.

Lemma hxfile_read_line_peeked behind (b : byte) ahead :
  to_char pf (byte_to_Z b) ≠ EOF ->
  hxfile_read_line pf (Some (InStream behind (b :: ahead))) =
    '(line, st) ← read_line_loop pf (S (S (length ahead))) (fresh pf 128) 0 None
                    (InStream behind (b :: ahead));
    Done (Some line, Some st).
Proof.
  intros Hne. pose proof (peek_restores behind b ahead Hne) as Hp.
  unfold hxfile_read_line. simpl in *.
  apply Z.eqb_neq in Hne. rewrite Hne, Hp. reflexivity.
Qed.
End peek.

(** ** Chunks of a line *)

Section chunks.
Implicit Types l s c buf behind rest : list byte.

(** The last chunk of a line that ends with a newline. *)
Lemma fgets_line buf behind l rest :
  LF ∉ l -> (length l < 127)%nat ->
  fgets buf 128 (InStream behind (l ++ LF :: rest)) =
    (true, (l ++ [LF]) ++ NUL :: drop (length l + 2) buf,
     InStream (behind ++ l ++ [LF]) rest).
Proof.
  intros Hlf Hlen. unfold fgets.
  assert (fgets_take (128 - 1) (l ++ LF :: rest) = (l ++ [LF], rest)) as Ht
    by (apply fgets_take_line; [exact Hlf | lia]).
  destruct (l ++ LF :: rest) as [|b s] eqn:Hs; [by destruct l|].
  rewrite Ht, length_app. simpl. do 5 f_equal. lia.
Qed.

(** A chunk of 127 bytes without a newline. *)
Lemma fgets_full buf behind s :
  length buf = 128%nat -> LF ∉ take 127 s -> (127 <= length s)%nat ->
  fgets buf 128 (InStream behind s) =
    (true, take 127 s ++ [NUL], InStream (behind ++ take 127 s) (drop 127 s)).
Proof.
  intros Hbuf Hlf Hlen. unfold fgets.
  assert (fgets_take (128 - 1) s = (take 127 s, drop 127 s)) as Ht
    by (apply fgets_take_full; [exact Hlf | lia]).
  destruct s as [|b s]; [simpl in Hlen; lia|].
  rewrite Ht. rewrite length_take_le by lia.
  rewrite drop_ge by lia. reflexivity.
Qed.

(** The flag byte after a chunk shorter than 127 bytes is still 0. *)
Lemma chunk_complete_short buf c :
  length buf = 128%nat -> buf !! 126%nat = Some NUL -> (length c < 127)%nat ->
  chunk_incomplete (c ++ NUL :: drop (length c + 1) buf) = false.
Proof.
  intros Hbuf H126 Hc. unfold chunk_incomplete.
  assert ((c ++ NUL :: drop (length c + 1) buf) !! 126%nat = Some NUL) as ->; [|reflexivity].
  rewrite lookup_app_r by lia.
  destruct (126 - length c)%nat as [|k] eqn:Hk; [reflexivity|]. simpl.
  rewrite lookup_drop. rewrite <- H126. f_equal. lia.
Qed.

(** After a chunk of 127 bytes the flag byte is the last byte read. *)
Lemma chunk_incomplete_full c (b : byte) :
  length c = 127%nat -> c !! 126%nat = Some b ->
  chunk_incomplete (c ++ [NUL]) = negb (Byte.eqb b NUL) && negb (Byte.eqb b LF).
Proof.
  intros Hc Hb. unfold chunk_incomplete.
  rewrite lookup_app_l by lia. by rewrite Hb.
Qed.
(** What [buf[126] = 0] makes of a full chunk. *)
Lemma stale_chunk c :
  length c = 127%nat -> <[126%nat := NUL]> (c ++ [NUL]) = take 126 c ++ [NUL; NUL].
Proof.
  intros Hlen. rewrite insert_app_l by lia. rewrite <- (take_drop 126 c) at 1.
  rewrite insert_app_r_alt by (rewrite length_take; lia).
  rewrite length_take_le by lia. rewrite Nat.sub_diag.
  destruct (drop 126 c) as [|x [|y t]] eqn:Hd;
    apply (f_equal length) in Hd; rewrite length_drop in Hd; simpl in Hd; try lia.
  simpl. by rewrite <- app_assoc.
Qed.

End chunks.

(** ** A line that ends with a newline *)

Section newline_terminated.
Variable pf : platform.
Implicit Types l acc buf behind rest : list byte.

Lemma read_line_loop_newline fuel : forall l buf osize line acc behind rest,
  (length l < fuel)%nat ->
  length buf = 128%nat ->
  accumulated pf osize line acc -> (length acc <= osize)%nat ->
  NUL ∉ l -> LF ∉ l ->
  (N.of_nat (osize + 2 * (length l + 1)) <= malloc_max pf)%N ->
  exists osize',
    read_line_loop pf fuel buf osize line (InStream behind (l ++ LF :: rest)) =
      Done (block_of pf osize' (acc ++ l ++ [LF]), InStream (behind ++ l ++ [LF]) rest).
Proof.
  induction fuel as [|fuel IH]; intros l buf osize line acc behind rest
    Hfuel Hbuf Hacc Hle Hnul Hlf Hmem; [lia|].
  rewrite (read_line_loop_step pf fuel buf osize line acc _ Hbuf Hacc Hle).
  flag_reset buf Hbuf Hbuf1 H126.
  destruct (decide (length l < 127)%nat) as [Hshort|Hlong].
  - (* the rest of the line and its newline fit in this chunk *)
    rewrite (fgets_line _ behind l rest Hlf Hshort). cbv beta iota zeta.
    assert (NUL ∉ l ++ [LF]) as Hnul'.
    { apply not_elem_of_app. split; [exact Hnul|].
      apply not_elem_of_cons. split; [discriminate | apply not_elem_of_nil]. }
    rewrite (c_str_app _ _ Hnul').
    assert ((N.of_nat (osize + (length (l ++ [LF]) + 1)) <=? malloc_max pf)%N = true) as ->.
    { apply N.leb_le. rewrite length_app. simpl. lia. }
    replace (length l + 2)%nat with (length (l ++ [LF]) + 1)%nat
      by (rewrite length_app; simpl; lia).
    destruct (decide (length l = 126%nat)) as [H126l|Hne].
    + (* the newline is the 127th byte: the flag byte is the newline *)
      rewrite drop_ge by (rewrite length_app; simpl; lia).
      rewrite (chunk_incomplete_full _ LF);
        [| rewrite length_app; simpl; lia
         | rewrite lookup_app_r by lia; by rewrite H126l].
      simpl. eexists. reflexivity.
    + rewrite chunk_complete_short;
        [| exact Hbuf1 | exact H126 | rewrite length_app; simpl; lia].
      eexists. reflexivity.
  - (* 127 bytes of the line fill the chunk *)
    assert (take 127 (l ++ LF :: rest) = take 127 l) as Htake
      by (rewrite take_app_le by lia; reflexivity).
    assert (drop 127 (l ++ LF :: rest) = drop 127 l ++ LF :: rest) as Hdrop
      by (rewrite drop_app_le by lia; reflexivity).
    assert (LF ∉ take 127 l) as Hlf1
      by (intros Hin; apply Hlf; by eapply subseteq_take).
    assert (NUL ∉ take 127 l) as Hnul1
      by (intros Hin; apply Hnul; by eapply subseteq_take).
    rewrite fgets_full;
      [| exact Hbuf1 | by rewrite Htake | rewrite length_app; simpl; lia].
    cbv beta iota zeta.
    rewrite Htake, Hdrop, (c_str_app _ [] Hnul1).
    rewrite length_take_le by lia.
    assert ((N.of_nat (osize + (127 + 1)) <=? malloc_max pf)%N = true) as ->
      by (apply N.leb_le; lia).
    destruct (lookup_lt_is_Some_2 l 126 ltac:(lia)) as [b Hb].
    rewrite (chunk_incomplete_full _ b);
      [| rewrite length_take_le by lia; reflexivity
       | rewrite lookup_take_lt by lia; exact Hb].
    assert (b ≠ NUL) as Hb0
      by (intros ->; apply Hnul; by eapply list_elem_of_lookup_2).
    assert (b ≠ LF) as Hb1
      by (intros ->; apply Hlf; by eapply list_elem_of_lookup_2).
    apply byte_eqb_false in Hb0, Hb1. rewrite Hb0, Hb1. simpl.
    destruct (IH (drop 127 l) (take 127 l ++ [NUL]) (osize + 128)%nat
                (Some (block_of pf (osize + 128) (acc ++ take 127 l)))
                (acc ++ take 127 l) (behind ++ take 127 l) rest) as [osize' Hres].
    + rewrite length_drop. lia.
    + rewrite length_app, length_take_le by lia. reflexivity.
    + pose proof (accumulated_step pf osize acc (take 127 l)
                    (proj1 Hacc) Hnul1 Hle) as Hstep.
      rewrite length_take_le in Hstep by lia. exact Hstep.
    + rewrite length_app, length_take_le by lia. lia.
    + intros Hin. apply Hnul. by eapply subseteq_drop.
    + intros Hin. apply Hlf. by eapply subseteq_drop.
    + rewrite length_drop. lia.
    + exists osize'. rewrite Hres.
      rewrite <- !app_assoc. rewrite (app_assoc (take 127 l)), take_drop.
      reflexivity.
Qed.
End newline_terminated.

(** C7 (counterexample). "A line that ends with a newline is returned with
    its newline" fails for a line that holds a zero byte: the line is
    accumulated with [strlen] and [strcat], which stop at that byte. Of
    the line ["ab\0cd\n"] the call returns ["ab"], without the newline,
    although the allocations succeed. *)
Lemma hxfile_read_line_zero_byte_hides_newline :
  ~ (forall (pf : platform) (behind l rest : list byte),
       LF ∉ l ->
       (N.of_nat (2 * (length l + 1)) <= malloc_max pf)%N ->
       returned_line (hxfile_read_line pf (Some (InStream behind (l ++ LF :: rest))))
       = Some (l ++ [LF])).
Proof.
  intros H.
  specialize (H x86_64 [] (bytes "ab" ++ NUL :: bytes "cd") (bytes "next")).
  assert (returned_line
            (hxfile_read_line x86_64
               (Some (InStream [] ((bytes "ab" ++ NUL :: bytes "cd") ++ LF :: bytes "next"))))
          = Some (bytes "ab")) as Hrun by (vm_compute; reflexivity).
  rewrite Hrun in H.
  assert (Some (bytes "ab") = Some ((bytes "ab" ++ NUL :: bytes "cd") ++ [LF])) as Heq.
  { apply H; [compute_done | vm_compute; discriminate]. }
  discriminate Heq.
Qed.

(** C7 (amended). When the line being read is text, that is, holds no zero
    byte, and ends with a newline in the stream, [hxfile_read_line]
    returns the whole line with its newline kept as the last character,
    and leaves the stream just after that newline, provided the
    allocations succeed. A line whose first byte is 0xFF where [char] is
    signed is left out: the peek (lines 171-173) takes that byte for
    [EOF]. *)
Theorem hxfile_read_line_keeps_newline (pf : platform) (behind l rest : list byte) :
  NUL ∉ l -> LF ∉ l ->
  (char_signed pf = true -> head l ≠ Some xff) ->
  (N.of_nat (2 * (length l + 1)) <= malloc_max pf)%N ->
  exists blk,
    hxfile_read_line pf (Some (InStream behind (l ++ LF :: rest)))
    = Done (Some blk, Some (InStream (behind ++ l ++ [LF]) rest))
    /\ c_str blk = l ++ [LF].
Proof.
  intros Hnul Hlf Hfront Hmem.
  assert (exists b ahead, l ++ LF :: rest = b :: ahead
                          /\ to_char pf (byte_to_Z b) ≠ EOF) as (b & ahead & E & Hb).
  { destruct l as [|b l'].
    - exists LF, rest. split; [reflexivity|]. rewrite to_char_eof. intros [_ ?]. discriminate.
    - exists b, (l' ++ LF :: rest). split; [reflexivity|].
      rewrite to_char_eof. intros [Hs ->]. by apply (Hfront Hs). }
  rewrite E, (hxfile_read_line_peeked pf behind b ahead Hb), <- E.
  destruct (read_line_loop_newline pf (S (S (length ahead))) l (fresh pf 128) 0 None []
              behind rest) as [osize' Hloop].
  - apply (f_equal length) in E. rewrite length_app in E. simpl in E. lia.
  - apply length_fresh.
  - split; [apply not_elem_of_nil | reflexivity].
  - simpl. lia.
  - exact Hnul.
  - exact Hlf.
  - lia.
  - rewrite Hloop. simpl. eexists. split; [reflexivity|].
    apply c_str_app. apply not_elem_of_app. split; [exact Hnul|].
    apply not_elem_of_cons. split; [discriminate | apply not_elem_of_nil].
Qed.

Lemma hxfile_read_line_keeps_newline_witness :
  exists blk,
    hxfile_read_line x86_64 (Some (InStream [] (bytes "ab" ++ LF :: bytes "cd")))
    = Done (Some blk, Some (InStream ([] ++ bytes "ab" ++ [LF]) (bytes "cd")))
    /\ c_str blk = bytes "ab" ++ [LF].
Proof.
  apply (hxfile_read_line_keeps_newline x86_64 [] (bytes "ab") (bytes "cd")).
  - compute_done.
  - compute_done.
  - discriminate.
  - vm_compute. discriminate.
Defined.

(** ** Where a newline can be in a returned line *)

Section newline_position.
Variable pf : platform.
Implicit Types l s c acc buf behind ahead : list byte.

Lemma c_str_cons (b : byte) m :
  c_str (b :: m) = if Byte.eqb b NUL then [] else b :: c_str m.
Proof.
  unfold c_str, c_str_at. rewrite !drop_0. simpl.
  destruct (Byte.eqb b NUL); [reflexivity|].
  by destruct (find_nul m).
Qed.

(** The string in [l ++ NUL :: r] is [l] up to its first zero byte. *)
Lemma c_str_prefix l r : c_str (l ++ NUL :: r) `prefix_of` l.
Proof.
  induction l as [|b l IH]; simpl.
  - rewrite c_str_cons. simpl. by exists [].
  - rewrite c_str_cons. destruct (Byte.eqb b NUL).
    + apply prefix_nil.
    + by apply prefix_cons.
Qed.

Lemma c_str_block_of osize acc : NUL ∉ acc -> c_str (block_of pf osize acc) = acc.
Proof. intros H. unfold block_of. by apply c_str_app. Qed.

Lemma lf_only_last_prefix s c : s `prefix_of` c -> lf_only_last c -> lf_only_last s.
Proof.
  intros [k ->] Hc i Hi.
  pose proof (lookup_lt_Some _ _ _ Hi) as Hlt.
  specialize (Hc i). rewrite lookup_app_l in Hc by exact Hlt.
  specialize (Hc Hi). rewrite length_app in Hc. lia.
Qed.

Lemma lf_only_last_app acc s : LF ∉ acc -> lf_only_last s -> lf_only_last (acc ++ s).
Proof.
  intros Hacc Hs i Hi. rewrite length_app.
  destruct (decide (i < length acc)%nat) as [Hlt|Hge].
  - rewrite lookup_app_l in Hi by exact Hlt.
    exfalso. apply Hacc. by eapply list_elem_of_lookup_2.
  - rewrite lookup_app_r in Hi by lia. specialize (Hs _ Hi). lia.
Qed.

Lemma lf_free_only_last s : LF ∉ s -> lf_only_last s.
Proof. intros Hs i Hi. exfalso. apply Hs. by eapply list_elem_of_lookup_2. Qed.

(** A chunk whose last byte is not a newline has none. *)
Lemma lf_only_last_free c (b : byte) :
  lf_only_last c -> last c = Some b -> b ≠ LF -> LF ∉ c.
Proof.
  intros Hc Hlast Hb Hin. apply list_elem_of_lookup in Hin as [i Hi].
  specialize (Hc _ Hi). rewrite last_lookup in Hlast.
  replace (Init.Nat.pred (length c)) with i in Hlast by lia. congruence.
Qed.

(** The newline-free part that stays in [buf] when [fgets] reads nothing. *)
Lemma stale_chunk_lf_free c :
  length c = 127%nat -> LF ∉ c -> LF ∉ c_str (<[126%nat := NUL]> (c ++ [NUL])).
Proof.
  intros Hlen Hc Hin. rewrite (stale_chunk c Hlen) in Hin.
  destruct (c_str_prefix (take 126 c) [NUL]) as [k Hk].
  apply Hc. apply (subseteq_take 126). rewrite Hk.
  apply elem_of_app. by left.
Qed.

Lemma read_line_loop_lf fuel : forall buf osize line acc behind ahead blk st',
  length buf = 128%nat ->
  accumulated pf osize line acc -> (length acc <= osize)%nat ->
  LF ∉ acc ->
  ahead ≠ [] \/ LF ∉ c_str (<[126%nat := NUL]> buf) ->
  read_line_loop pf fuel buf osize line (InStream behind ahead) = Done (blk, st') ->
  lf_only_last (c_str blk).
Proof.
  induction fuel as [|fuel IH]; intros buf osize line acc behind ahead blk st'
    Hbuf Hacc Hle Hlf Hstale; [discriminate|].
  rewrite (read_line_loop_step pf fuel buf osize line acc _ Hbuf Hacc Hle).
  flag_reset buf Hbuf Hbuf1 H126.
  destruct (fgets (<[126%nat:=NUL]> buf) 128 (InStream behind ahead))
    as [[ok buf'] st1] eqn:Hf.
  pose proof (fgets_buf _ _ _ _ _ Hbuf1 H126 Hf) as [Hbuf' Hnul'].
  destruct (c_str_split _ Hnul') as (r & Hsplit & Hfree).
  cbv beta iota zeta.
  destruct (N.of_nat (osize + (length (c_str buf') + 1)) <=? malloc_max pf)%N;
    [|discriminate].
  assert (NUL ∉ acc ++ c_str buf') as Hfree'
    by (apply not_elem_of_app; split; [apply Hacc | exact Hfree]).
  unfold fgets in Hf. destruct ahead as [|b ahead].
  - (* nothing left to read: [buf] is as the last iteration left it *)
    injection Hf as <- <- <-.
    destruct Hstale as [?|Hstale]; [done|].
    assert (chunk_incomplete (<[126%nat:=NUL]> buf) = false) as ->
      by (unfold chunk_incomplete; by rewrite H126).
    intros [= <- <-]. rewrite (c_str_block_of _ _ Hfree').
    apply lf_free_only_last. by apply not_elem_of_app.
  - destruct (fgets_take (128 - 1) (b :: ahead)) as [c rest] eqn:Hc.
    injection Hf as <- <- <-.
    pose proof (fgets_take_lf _ _ _ _ Hc) as Hclf.
    pose proof (fgets_take_app _ _ _ _ Hc) as [_ Hclen].
    pose proof (c_str_prefix c (drop (length c + 1) (<[126%nat:=NUL]> buf))) as Hpre.
    destruct (decide (length c < 127)%nat) as [Hshort|Hfull].
    + rewrite (chunk_complete_short _ c Hbuf1 H126 Hshort).
      intros [= <- <-]. rewrite (c_str_block_of _ _ Hfree').
      apply lf_only_last_app; [exact Hlf|]. by eapply lf_only_last_prefix.
    + assert (length c = 127%nat) as Hc127 by lia.
      rewrite drop_ge in * by lia.
      destruct (lookup_lt_is_Some_2 c 126 ltac:(lia)) as [x Hx].
      rewrite (chunk_incomplete_full c x Hc127 Hx).
      destruct (Byte.eqb x NUL) eqn:Hx0; simpl.
      { intros [= <- <-]. rewrite (c_str_block_of _ _ Hfree').
        apply lf_only_last_app; [exact Hlf|]. by eapply lf_only_last_prefix. }
      destruct (Byte.eqb x LF) eqn:Hx1; simpl.
      { intros [= <- <-]. rewrite (c_str_block_of _ _ Hfree').
        apply lf_only_last_app; [exact Hlf|]. by eapply lf_only_last_prefix. }
      assert (LF ∉ c) as Hcfree.
      { apply (lf_only_last_free c x Hclf).
        - rewrite last_lookup, Hc127. exact Hx.
        - by apply byte_eqb_false. }
      apply (IH _ _ _ (acc ++ c_str (c ++ [NUL]))).
      * rewrite length_app. simpl. lia.
      * apply accumulated_step; [apply Hacc | exact Hfree | exact Hle].
      * rewrite length_app. lia.
      * apply not_elem_of_app. split; [exact Hlf|].
        destruct Hpre as [k Hk]. intros Hin. apply Hcfree. rewrite Hk.
        apply elem_of_app. by left.
      * right. by apply stale_chunk_lf_free.
Qed.
End newline_position.

(** C6 (counterexample). The claim "no returned string contains a newline;
    the delimiter is stripped" fails: on a stream that starts with
    ["ab\ncd"] the call returns ["ab\n"]. *)
Lemma hxfile_read_line_newline_not_stripped :
  ~ (forall (pf : platform) (st : FILE) (s : list byte),
       returned_line (hxfile_read_line pf (Some st)) = Some s -> LF ∉ s).
Proof.
  intros H.
  apply (H x86_64 (InStream [] (bytes "ab" ++ LF :: bytes "cd")) (bytes "ab" ++ [LF])).
  - vm_compute. reflexivity.
  - compute_done.
Qed.

(** C6 (amended). Every string [hxfile_read_line] returns for a stream open
    for reading has no newline except, possibly, as its last character:
    the delimiter is not stripped, it ends the returned line. *)
Theorem hxfile_read_line_newline_only_last (pf : platform)
    (behind ahead s : list byte) :
  returned_line (hxfile_read_line pf (Some (InStream behind ahead))) = Some s ->
  lf_only_last s.
Proof.
  unfold hxfile_read_line.
  destruct (getc (InStream behind ahead)) as [i st] eqn:Hg.
  destruct (to_char pf i =? EOF) eqn:Hc; [discriminate|].
  assert (exists behind' x ahead',
            ungetc (to_char pf i) st = InStream behind' (x :: ahead'))
    as (behind' & x & ahead' & ->).
  { unfold ungetc. rewrite Hc. destruct ahead as [|b ahead]; simpl in Hg.
    - injection Hg as <- <-. by eexists _, _, _.
    - injection Hg as <- <-. by eexists _, _, _. }
  destruct (read_line_loop pf _ _ _ _ _) as [[blk st']|f] eqn:Hloop; [|discriminate].
  simpl. intros [= <-].
  eapply (read_line_loop_lf pf); [ | | | | | exact Hloop].
  - apply length_fresh.
  - split; [apply not_elem_of_nil | reflexivity].
  - simpl. lia.
  - apply not_elem_of_nil.
  - by left.
Qed.

Lemma hxfile_read_line_newline_only_last_witness :
  lf_only_last (bytes "ab" ++ [LF]).
Proof.
  apply (hxfile_read_line_newline_only_last x86_64 [] (bytes "ab" ++ LF :: bytes "cd")).
  vm_compute. reflexivity.
Defined.

(** ** End of stream and the absent result *)

Example peek_takes_0xFF_for_EOF :
  hxfile_read_line x86_64 (Some (InStream [] (xff :: bytes "a" ++ [LF])))
  = Done (None, Some (InStream [xff] (bytes "a" ++ [LF]))).
Proof. vm_compute. reflexivity. Qed.

Example peek_misses_EOF_with_unsigned_char :
  hxfile_read_line aarch64 (Some (InStream [] []))
  = Done (Some [xff; NUL], Some (InStream [xff] [])).
Proof. vm_compute. reflexivity. Qed.

(** X8. When the call returns the absent result for a stream open for
    reading: never where [char] is unsigned; at the end of the stream and
    before a byte 0xFF where it is signed. *)
Lemma hxfile_read_line_absent_iff (pf : platform) (behind ahead : list byte) :
  absent (hxfile_read_line pf (Some (InStream behind ahead)))
  <-> char_signed pf = true /\ (ahead = [] \/ head ahead = Some xff).
Proof.
  unfold hxfile_read_line. destruct ahead as [|b ahead]; cbn [getc head].
  - unfold to_char. destruct (char_signed pf).
    + split; [intros _; split; [reflexivity | by left] | intros _; by eexists].
    + change (EOF `mod` 256 =? EOF) with false. cbv iota. split.
      * destruct (read_line_loop pf _ _ _ _ _) as [[line st']|f];
          intros [st'' Hst]; discriminate.
      * intros [? _]. discriminate.
  - destruct (Z.eqb_spec (to_char pf (byte_to_Z b)) EOF) as [Heof|Hne].
    + apply to_char_eof in Heof as [Hs ->].
      split; [intros _; split; [exact Hs | by right] | intros _; by eexists].
    + split.
      * destruct (read_line_loop pf _ _ _ _ _) as [[line st']|f];
          intros [st'' Hst]; discriminate.
      * intros [Hs [?|[= ->]]]; [discriminate|].
        exfalso. apply Hne. apply to_char_eof. by split.
Qed.

(** C3. "Absent exactly at end of stream" fails on every platform, because
    the result of [getc] is stored in a [char] before it is compared with
    [EOF]: where [char] is signed, a stream that starts with the byte 0xFF
    gives the absent result although it is not at its end; where [char] is
    unsigned, a stream at its end does not give the absent result. *)
Theorem hxfile_read_line_absent_not_iff_eof (pf : platform) :
  exists st : FILE,
    ~ (absent (hxfile_read_line pf (Some st)) <-> at_eof st).
Proof.
  destruct (char_signed pf) eqn:Hs.
  - exists (InStream [] [xff]). intros [Habs _].
    assert (at_eof (InStream [] [xff])) as Heof; [|discriminate Heof].
    apply Habs. eexists. unfold hxfile_read_line, to_char. rewrite Hs. reflexivity.
  - exists (InStream [] []). intros [_ Habs].
    destruct (Habs eq_refl) as [st' Hst']. revert Hst'.
    unfold hxfile_read_line. cbn [getc]. unfold to_char. rewrite Hs.
    change (EOF `mod` 256 =? EOF) with false. cbv iota.
    destruct (read_line_loop pf _ _ _ _ _) as [[line st'']|f]; discriminate.
Qed.

(** ** Whole-file read *)

Section whole_file.
Variable pf : platform.
Implicit Types c r : list byte.

(** [fread] into a fresh block of [length c + 1] bytes, then the store of
    the terminator. *)
Lemma terminate_fresh c :
  store (c ++ drop (length c) (fresh pf (length c + 1))) (length c) NUL
  = Done (c ++ [NUL]).
Proof.
  rewrite store_inside
    by (rewrite length_app, length_drop, length_fresh; lia).
  f_equal. rewrite insert_app_r_alt by lia. rewrite Nat.sub_diag.
  destruct (drop (length c) (fresh pf (length c + 1))) as [|x [|y t]] eqn:Hd;
    apply (f_equal length) in Hd; rewrite length_drop, length_fresh in Hd;
    simpl in Hd; try lia.
  reflexivity.
Qed.

Lemma read_existing w path mode c :
  files w !! path = Some c ->
  read pf w (Some path) (Some (String "r" mode)) =
    if (N.of_nat (length c + 1) <=? malloc_max pf)%N
    then Done (Some (c ++ [NUL]),
               log Fclose (log (Fread (length c))
                 (log (Fopen path (String "r" mode) true) w)))
    else Fault NullDeref.
Proof.
  intros Hc. unfold read, fopen. rewrite Hc. simpl.
  rewrite app_nil_r. unfold malloc.
  destruct (N.of_nat (length c + 1) <=? malloc_max pf)%N; [|reflexivity].
  unfold fread. rewrite firstn_all.
  rewrite decide_True by (rewrite length_fresh; lia).
  cbn [mbind outcome_bind]. rewrite terminate_fresh. reflexivity.
Qed.

Lemma read_missing w path mode :
  files w !! path = None ->
  read pf w (Some path) (Some (String "r" mode)) =
    Done (None, log (Fopen path (String "r" mode) false) w).
Proof. intros Hc. unfold read, fopen. by rewrite Hc. Qed.
End whole_file.

(** C4 (counterexample). A failed allocation is not surfaced as an absent
    result: with a five-byte file and a [malloc] that cannot give six
    bytes, the run stops at the store through the null pointer. *)
Lemma hxfile_read_allocation_failure_not_absent :
  ~ (forall (pf : platform) (w : world) (path : string),
       files w !! path = None
       \/ malloc pf (length (content w path) + 1) = None ->
       absent (hxfile_read pf w (Some path)) /\
       absent (hxfile_read_raw pf w (Some path))).
Proof.
  intros H.
  destruct (H small_heap (world_with "f" (bytes "hello")) "f"%string) as [[w' Hw'] _].
  - right. vm_compute. reflexivity.
  - vm_compute in Hw'. discriminate.
Qed.

(** *** Files of any kind *)

Section any_kind.
Variable kinds : string -> file_kind.
Variable pf : platform.
Implicit Types c : list byte.

(** On a file system of ordinary files [read_any] is [read]. *)
Lemma read_any_ordinary w filepath options :
  read_any (fun _ => Ordinary) pf w filepath options = read pf w filepath options.
Proof. reflexivity. Qed.

Lemma read_any_missing w path mode :
  files w !! path = None ->
  read_any kinds pf w (Some path) (Some (String "r" mode)) =
    Done (None, log (Fopen path (String "r" mode) false) w).
Proof. intros Hc. unfold read_any, fopen. by rewrite Hc. Qed.

Lemma read_any_existing w path mode c :
  kinds path = Ordinary ->
  files w !! path = Some c ->
  read_any kinds pf w (Some path) (Some (String "r" mode)) =
    if (N.of_nat (length c + 1) <=? malloc_max pf)%N
    then Done (Some (c ++ [NUL]),
               log Fclose (log (Fread (length c))
                 (log (Fopen path (String "r" mode) true) w)))
    else Fault NullDeref.
Proof.
  intros Hk Hc. unfold read_any, fopen. rewrite Hc, Hk. simpl.
  rewrite app_nil_r. unfold malloc.
  destruct (N.of_nat (length c + 1) <=? malloc_max pf)%N; [|reflexivity].
  unfold fread. rewrite firstn_all.
  rewrite decide_True by (rewrite length_fresh; lia).
  cbn [mbind outcome_bind]. rewrite terminate_fresh. reflexivity.
Qed.

(** A file that reports fewer bytes than it holds comes back cut to the
    size reported: no result of [ftell] or [fread] is compared with
    anything. *)
Lemma read_any_cut_short w path mode c n :
  kinds path = Sized n ->
  files w !! path = Some c ->
  (n <= length c)%nat ->
  (N.of_nat (n + 1) <= malloc_max pf)%N ->
  read_any kinds pf w (Some path) (Some (String "r" mode)) =
    Done (Some (take n c ++ [NUL]),
          log Fclose (log (Fread n) (log (Fopen path (String "r" mode) true) w))).
Proof.
  intros Hk Hc Hn Hmem. unfold read_any, fopen. rewrite Hc, Hk. simpl.
  rewrite app_nil_r. unfold malloc. apply N.leb_le in Hmem. rewrite Hmem.
  unfold fread.
  assert (length (take n c) = n) as Hlen by (rewrite length_take; lia).
  rewrite Hlen, decide_True by (rewrite length_fresh; lia).
  cbn [mbind outcome_bind].
  pose proof (terminate_fresh pf (take n c)) as Hstore. rewrite Hlen in Hstore.
  rewrite Hstore. reflexivity.
Qed.
End any_kind.

(** The entry of /proc holds six bytes and reports none: the whole-file
    read returns the empty string. *)
Example hxfile_read_proc_entry_empty :
  hxfile_read_any with_proc x86_64 (world_with proc_ostype (bytes "Linux" ++ [LF]))
    (Some proc_ostype)
  = Done (Some [NUL],
          log Fclose (log (Fread 0) (log (Fopen proc_ostype "r" true)
            (world_with proc_ostype (bytes "Linux" ++ [LF]))))).
Proof.
  apply (read_any_cut_short with_proc x86_64 _ proc_ostype EmptyString
           (bytes "Linux" ++ [LF]) 0).
  - reflexivity.
  - reflexivity.
  - simpl. lia.
  - vm_compute. discriminate.
Qed.

(** C4 (amended). For a path that names an ordinary file or no file, in
    text and in binary mode: when the file cannot be opened the result is
    absent; when it is opened and the buffer is allocated the result is
    the whole content and a terminator, not a part of it, after one
    [fopen], one [fread] and one [fclose]; when the buffer cannot be
    allocated the code, which does not test [malloc]'s result, stores
    through the null pointer. The other files of the file system may be
    of any kind; of a file that is not ordinary nothing is stated. *)
Theorem hxfile_read_open_failure_or_whole_content
    (kinds : string -> file_kind) (pf : platform) (w : world) (path : string)
    (raw : bool) :
  kinds path = Ordinary ->
  let rd := if raw then hxfile_read_raw_any else hxfile_read_any in
  let mode := if raw then "rb"%string else "r"%string in
  match files w !! path with
  | None => rd kinds pf w (Some path) = Done (None, log (Fopen path mode false) w)
  | Some c =>
      if (N.of_nat (length c + 1) <=? malloc_max pf)%N
      then rd kinds pf w (Some path)
           = Done (Some (c ++ [NUL]),
                   log Fclose (log (Fread (length c)) (log (Fopen path mode true) w)))
      else rd kinds pf w (Some path) = Fault NullDeref
  end.
Proof.
  intros Hk rd mode. subst rd mode.
  destruct (files w !! path) as [c|] eqn:Hc; destruct raw;
    unfold hxfile_read_any, hxfile_read_raw_any.
  - rewrite (read_any_existing kinds pf w path _ c Hk Hc). by destruct (_ <=? _)%N.
  - rewrite (read_any_existing kinds pf w path _ c Hk Hc). by destruct (_ <=? _)%N.
  - by apply read_any_missing.
  - by apply read_any_missing.
Qed.

Lemma hxfile_read_open_failure_or_whole_content_witness :
  hxfile_read_any with_proc x86_64 (world_with "f" (bytes "hello")) (Some "f"%string)
  = Done (Some (bytes "hello" ++ [NUL]),
          log Fclose (log (Fread 5) (log (Fopen "f" "r" true)
            (world_with "f" (bytes "hello"))))).
Proof.
  exact (hxfile_read_open_failure_or_whole_content with_proc x86_64
           (world_with "f" (bytes "hello")) "f" false eq_refl).
Defined.

(** ** Write, then read *)

Section round_trip.
Variable pf : platform.
Implicit Types C r : list byte.

(** What [hxfile_write_raw] leaves in the file: the characters of the C
    string [text], whatever follows its first zero byte left out. *)
Lemma write_raw_content w path C r :
  NUL ∉ C -> path ∉ locked w ->
  exists w1,
    hxfile_write_raw w (Some path) (Some (C ++ NUL :: r)) = Done (true, w1)
    /\ files w1 !! path = Some C.
Proof.
  intros HC Hw. unfold hxfile_write_raw, write, fopen.
  rewrite decide_False by exact Hw.
  unfold fputs. rewrite (strlen_app _ _ HC). cbn [mbind outcome_bind].
  eexists. split; [reflexivity|]. simpl.
  rewrite lookup_insert_eq. f_equal.
  unfold content. simpl. rewrite lookup_insert_eq. simpl.
  by rewrite take_app_length.
Qed.
End round_trip.

(** C8 (counterexample). The round trip fails for a content with a zero
    byte: of ["a\0b"] only ["a"] reaches the file and comes back. It also
    fails, for a content without a zero byte, when the buffer of the read
    cannot be allocated. *)
Lemma write_read_round_trip_fails_on_zero_byte :
  ~ (forall (pf : platform) (w : world) (path : string) (C : list byte),
       path ∉ locked w ->
       exists w1 w2,
         hxfile_write_raw w (Some path) (Some (C ++ [NUL])) = Done (true, w1)
         /\ hxfile_read_raw pf w1 (Some path) = Done (Some (C ++ [NUL]), w2))
  /\
  ~ (forall (pf : platform) (w : world) (path : string) (C : list byte),
       NUL ∉ C -> path ∉ locked w ->
       exists w1 w2,
         hxfile_write_raw w (Some path) (Some (C ++ [NUL])) = Done (true, w1)
         /\ hxfile_read_raw pf w1 (Some path) = Done (Some (C ++ [NUL]), w2)).
Proof.
  split; intros H.
  - destruct (H x86_64 (world_with "f" []) "f"%string [x61; NUL; x62])
      as (w1 & w2 & Hw & Hr).
    + compute_done.
    + vm_compute in Hw. injection Hw as <-. vm_compute in Hr. discriminate.
  - destruct (H small_heap (world_with "f" []) "f"%string (bytes "hello"))
      as (w1 & w2 & Hw & Hr).
    + compute_done.
    + compute_done.
    + vm_compute in Hw. injection Hw as <-. vm_compute in Hr. discriminate.
Qed.

(** C8 (amended). For every content [C] without a zero byte and every path
    that can be written: writing [C] in binary mode and reading the file
    back in binary mode gives [C] (followed by the terminator), when the
    buffer of the read can be allocated. *)
Theorem write_raw_read_raw_round_trip
    (pf : platform) (w : world) (path : string) (C r : list byte) :
  NUL ∉ C -> path ∉ locked w ->
  (N.of_nat (length C + 1) <= malloc_max pf)%N ->
  exists w1 w2,
    hxfile_write_raw w (Some path) (Some (C ++ NUL :: r)) = Done (true, w1)
    /\ hxfile_read_raw pf w1 (Some path) = Done (Some (C ++ [NUL]), w2)
    /\ c_str (C ++ [NUL]) = C.
Proof.
  intros HC Hw Hmem.
  destruct (write_raw_content w path C r HC Hw) as (w1 & Hwrite & Hfile).
  exists w1. eexists. split; [exact Hwrite|]. split.
  - unfold hxfile_read_raw. rewrite (read_existing pf w1 path _ C Hfile).
    apply N.leb_le in Hmem. rewrite Hmem. reflexivity.
  - by apply c_str_app.
Qed.

Lemma write_raw_read_raw_round_trip_witness :
  exists w1 w2,
    hxfile_write_raw (world_with "f" (bytes "old")) (Some "g"%string)
      (Some (bytes "new" ++ NUL :: [])) = Done (true, w1)
    /\ hxfile_read_raw x86_64 w1 (Some "g"%string) = Done (Some (bytes "new" ++ [NUL]), w2)
    /\ c_str (bytes "new" ++ [NUL]) = bytes "new".
Proof.
  apply (write_raw_read_raw_round_trip x86_64 (world_with "f" (bytes "old")) "g"
           (bytes "new") []).
  - compute_done.
  - compute_done.
  - vm_compute. discriminate.
Defined.

(** ** Null pointers *)

(** C10. With a null file path, a null text or data pointer, or a null
    stream, every operation returns its failure value ([NULL] or [false])
    at once: no call is made on the file system, which is left as it
    was. *)
Theorem null_argument_fails_at_once
    (pf : platform) (w : world) (path : option string) (text : option (list byte)) :
  hxfile_read pf w None = Done (None, w) /\
  hxfile_read_raw pf w None = Done (None, w) /\
  hxfile_read_lines pf w None = Done (None, w) /\
  hxfile_read_line pf None = Done (None, None) /\
  hxfile_write w None text = Done (false, w) /\
  hxfile_write w path None = Done (false, w) /\
  hxfile_write_raw w None text = Done (false, w) /\
  hxfile_write_raw w path None = Done (false, w) /\
  hxfile_append w None text = Done (false, w) /\
  hxfile_append w path None = Done (false, w) /\
  hxfile_append_raw w None text = Done (false, w) /\
  hxfile_append_raw w path None = Done (false, w).
Proof.
  repeat split; try reflexivity; by destruct path.
Qed.

(** ** The call returns *)

Section termination.
Variable pf : platform.
Implicit Types c acc buf behind ahead : list byte.

(** The loop goes on only after a chunk of 127 bytes was read. *)
Lemma fgets_incomplete buf behind ahead ok buf' st' :
  length buf = 128%nat -> buf !! 126%nat = Some NUL ->
  fgets buf 128 (InStream behind ahead) = (ok, buf', st') ->
  chunk_incomplete buf' = true ->
  exists c rest,
    ahead = c ++ rest /\ length c = 127%nat /\ buf' = c ++ [NUL]
    /\ st' = InStream (behind ++ c) rest.
Proof.
  intros Hbuf H126. unfold fgets. destruct ahead as [|b ahead].
  - intros [= <- <- <-] Hinc. unfold chunk_incomplete in Hinc.
    by rewrite H126 in Hinc.
  - destruct (fgets_take (128 - 1) (b :: ahead)) as [c rest] eqn:Hc.
    intros [= <- <- <-] Hinc.
    apply fgets_take_app in Hc as [Happ Hlen].
    destruct (decide (length c < 127)%nat) as [Hshort|Hfull].
    + by rewrite (chunk_complete_short _ c Hbuf H126 Hshort) in Hinc.
    + exists c, rest. rewrite drop_ge by lia. repeat split; [exact Happ | lia].
Qed.

(** The string [fgets] leaves in the array has at most 127 bytes. *)
Lemma c_str_chunk_length buf :
  length buf = 128%nat -> NUL ∈ buf -> (length (c_str buf) <= 127)%nat.
Proof.
  intros Hbuf Hnul. destruct (c_str_split _ Hnul) as (r & Hsplit & _).
  apply (f_equal length) in Hsplit. rewrite length_app in Hsplit. simpl in Hsplit. lia.
Qed.

(** With one unit of fuel more than bytes left to read, the loop ends:
    with a line, or at a failed allocation. *)
Lemma read_line_loop_total fuel : forall buf osize line acc behind ahead,
  (length ahead < fuel)%nat ->
  length buf = 128%nat ->
  accumulated pf osize line acc -> (length acc <= osize)%nat ->
  (exists blk st',
     read_line_loop pf fuel buf osize line (InStream behind ahead) = Done (blk, st'))
  \/ (read_line_loop pf fuel buf osize line (InStream behind ahead) = Fault NullDeref
      /\ (malloc_max pf < N.of_nat (osize + 2 * length ahead + 128))%N).
Proof.
  induction fuel as [|fuel IH]; intros buf osize line acc behind ahead
    Hfuel Hbuf Hacc Hle; [lia|].
  rewrite (read_line_loop_step pf fuel buf osize line acc _ Hbuf Hacc Hle).
  flag_reset buf Hbuf Hbuf1 H126.
  destruct (fgets (<[126%nat:=NUL]> buf) 128 (InStream behind ahead))
    as [[ok buf'] st1] eqn:Hf.
  pose proof (fgets_buf _ _ _ _ _ Hbuf1 H126 Hf) as [Hbuf' Hnul'].
  pose proof (c_str_chunk_length _ Hbuf' Hnul') as Hlen.
  destruct (c_str_split _ Hnul') as (r & Hsplit & Hfree).
  cbv beta iota zeta.
  destruct (N.leb_spec (N.of_nat (osize + (length (c_str buf') + 1))) (malloc_max pf))
    as [Hmem|Hmem]; [|right; split; [reflexivity | lia]].
  destruct (chunk_incomplete buf') eqn:Hinc; [|left; by eexists _, _].
  destruct (fgets_incomplete _ _ _ _ _ _ Hbuf1 H126 Hf Hinc)
    as (c & rest & -> & Hc & -> & ->).
  rewrite length_app in Hfuel.
  destruct (IH (c ++ [NUL]) (osize + (length (c_str (c ++ [NUL])) + 1))%nat
              (Some (block_of pf (osize + (length (c_str (c ++ [NUL])) + 1))
                       (acc ++ c_str (c ++ [NUL]))))
              (acc ++ c_str (c ++ [NUL])) (behind ++ c) rest)
    as [Hdone|[Hfault Hbound]].
  - lia.
  - exact Hbuf'.
  - apply accumulated_step; [apply Hacc | exact Hfree | exact Hle].
  - rewrite length_app. lia.
  - by left.
  - right. split; [exact Hfault|]. rewrite length_app. lia.
Qed.

(** X9. [hxfile_read_line] on a stream open for reading returns, unless
    an allocation fails: no access is out of bounds, and the loop ends.
    No allocation fails when [malloc] can give twice the bytes left in the
    stream and 130 more. *)
Lemma hxfile_read_line_returns behind ahead :
  (exists r, hxfile_read_line pf (Some (InStream behind ahead)) = Done r)
  \/ (hxfile_read_line pf (Some (InStream behind ahead)) = Fault NullDeref
      /\ (malloc_max pf < N.of_nat (2 * length ahead + 130))%N).
Proof.
  unfold hxfile_read_line.
  destruct (getc (InStream behind ahead)) as [i st] eqn:Hg.
  destruct (to_char pf i =? EOF) eqn:Hc; [left; by eexists|].
  assert (exists behind' ahead',
            ungetc (to_char pf i) st = InStream behind' ahead'
            /\ (length ahead' <= length ahead + 1)%nat)
    as (behind' & ahead' & -> & Hlen).
  { unfold ungetc. rewrite Hc. destruct ahead as [|b ahead]; simpl in Hg.
    - injection Hg as <- <-. eexists _, _. split; [reflexivity | simpl; lia].
    - injection Hg as <- <-. eexists _, _. split; [reflexivity | simpl; lia]. }
  cbn [unread].
  destruct (read_line_loop_total (S (length ahead')) (fresh pf 128) 0 None []
              behind' ahead') as [(blk & st' & ->)|[-> Hbound]].
  - lia.
  - apply length_fresh.
  - split; [apply not_elem_of_nil | reflexivity].
  - simpl. lia.
  - left. by eexists.
  - right. split; [reflexivity | lia].
Qed.
End termination.

(** ** A last line without a newline *)

Section unterminated.
Variable pf : platform.
Implicit Types l c acc buf behind : list byte.

(** The last chunk of a line that the end of the stream ends. *)
Lemma fgets_eof buf behind l :
  l ≠ [] -> LF ∉ l -> (length l < 127)%nat ->
  fgets buf 128 (InStream behind l) =
    (true, l ++ NUL :: drop (length l + 1) buf, InStream (behind ++ l) []).
Proof.
  intros Hne Hlf Hlen. unfold fgets.
  assert (fgets_take (128 - 1) l = (l, [])) as Ht
    by (apply fgets_take_eof; [exact Hlf | lia]).
  destruct l as [|b s]; [done|]. by rewrite Ht.
Qed.

Lemma c_str_stale_chunk c :
  length c = 127%nat -> NUL ∉ c -> c_str (<[126%nat := NUL]> (c ++ [NUL])) = take 126 c.
Proof.
  intros Hlen Hc. rewrite (stale_chunk c Hlen). apply c_str_app.
  intros Hin. apply Hc. by eapply subseteq_take.
Qed.

(** The string in the array after [buf[126] = 0] has at most 126 bytes. *)
Lemma c_str_flagged_length buf :
  length buf = 128%nat -> (length (c_str (<[126%nat := NUL]> buf)) <= 126)%nat.
Proof.
  intros Hbuf.
  assert (<[126%nat:=NUL]> buf = take 126 buf ++ NUL :: drop 127 buf) as ->.
  { rewrite <- (take_drop 126 buf) at 1.
    rewrite insert_app_r_alt by (rewrite length_take; lia).
    rewrite length_take_le by lia. rewrite Nat.sub_diag.
    destruct (drop 126 buf) as [|x t] eqn:Hd.
    - apply (f_equal length) in Hd. rewrite length_drop in Hd. simpl in Hd. lia.
    - simpl. do 2 f_equal.
      change t with (drop 1 (x :: t)). rewrite <- Hd, drop_drop. reflexivity. }
  destruct (c_str_prefix (take 126 buf) (drop 127 buf)) as [k Hk].
  apply (f_equal length) in Hk. rewrite length_app, length_take in Hk. lia.
Qed.

Lemma repeated_tail_short l :
  (0 < length l < 127)%nat -> repeated_tail l = [].
Proof.
  intros Hlen. unfold repeated_tail. rewrite Nat.mod_small by lia.
  destruct (Nat.eqb_spec (length l) 0); [lia | reflexivity].
Qed.

Lemma repeated_tail_one_chunk l :
  length l = 127%nat -> repeated_tail l = take 126 l.
Proof. intros Hlen. unfold repeated_tail. by rewrite Hlen. Qed.

Lemma repeated_tail_drop l :
  (127 < length l)%nat -> repeated_tail (drop 127 l) = repeated_tail l.
Proof.
  intros Hlen. unfold repeated_tail. rewrite length_drop.
  assert ((length l - 127) mod 127 = length l mod 127)%nat as ->.
  { replace (length l) with (length l - 127 + 1 * 127)%nat at 2 by lia.
    by rewrite Nat.Div0.mod_add. }
  destruct (Nat.eqb_spec (length l mod 127) 0) as [Hmod|]; [|reflexivity].
  pose proof (Nat.Div0.div_mod (length l) 127) as Hdiv. rewrite Hmod in Hdiv.
  rewrite drop_drop. do 2 f_equal. lia.
Qed.

Lemma read_line_loop_eof fuel : forall l buf osize line acc behind,
  (length l < fuel)%nat ->
  length buf = 128%nat ->
  accumulated pf osize line acc -> (length acc <= osize)%nat ->
  NUL ∉ l -> LF ∉ l ->
  (N.of_nat (osize + 2 * length l + 128) <= malloc_max pf)%N ->
  exists osize',
    read_line_loop pf fuel buf osize line (InStream behind l) =
      Done (block_of pf osize'
              (acc ++ l ++ match l with
                           | [] => c_str (<[126%nat := NUL]> buf)
                           | _ => repeated_tail l
                           end),
            InStream (behind ++ l) []).
Proof.
  induction fuel as [|fuel IH]; intros l buf osize line acc behind
    Hfuel Hbuf Hacc Hle Hnul Hlf Hmem; [lia|].
  rewrite (read_line_loop_step pf fuel buf osize line acc _ Hbuf Hacc Hle).
  flag_reset buf Hbuf Hbuf1 H126.
  destruct (decide (l = [])) as [->|Hne].
  - (* nothing is read: the string left in [buf] is appended *)
    cbn [fgets]. cbv beta iota zeta.
    pose proof (c_str_flagged_length buf Hbuf) as Hstale.
    assert ((N.of_nat (osize + (length (c_str (<[126%nat:=NUL]> buf)) + 1))
               <=? malloc_max pf)%N = true) as -> by (apply N.leb_le; simpl in Hmem; lia).
    assert (chunk_incomplete (<[126%nat:=NUL]> buf) = false) as ->
      by (unfold chunk_incomplete; by rewrite H126).
    rewrite !app_nil_r. simpl. eexists. reflexivity.
  - destruct (decide (length l < 127)%nat) as [Hshort|Hlong].
    + (* the rest of the line is shorter than a chunk *)
      rewrite (fgets_eof _ behind l Hne Hlf Hshort). cbv beta iota zeta.
      rewrite (c_str_app _ _ Hnul).
      assert ((N.of_nat (osize + (length l + 1)) <=? malloc_max pf)%N = true) as ->
        by (apply N.leb_le; lia).
      rewrite (chunk_complete_short _ l Hbuf1 H126 Hshort).
      rewrite repeated_tail_short by (destruct l; simpl in *; [done | lia]).
      destruct l as [|x t]; [done|]. rewrite app_nil_r. eexists. reflexivity.
    + (* 127 bytes of the line fill the chunk *)
      assert (LF ∉ take 127 l) as Hlf1
        by (intros Hin; apply Hlf; by eapply subseteq_take).
      assert (NUL ∉ take 127 l) as Hnul1
        by (intros Hin; apply Hnul; by eapply subseteq_take).
      rewrite (fgets_full _ behind l Hbuf1 Hlf1) by lia. cbv beta iota zeta.
      rewrite (c_str_app _ [] Hnul1), length_take_le by lia.
      assert ((N.of_nat (osize + (127 + 1)) <=? malloc_max pf)%N = true) as ->
        by (apply N.leb_le; lia).
      destruct (lookup_lt_is_Some_2 l 126 ltac:(lia)) as [b Hb].
      rewrite (chunk_incomplete_full _ b);
        [| rewrite length_take_le by lia; reflexivity
         | rewrite lookup_take_lt by lia; exact Hb].
      assert (b ≠ NUL) as Hb0
        by (intros ->; apply Hnul; by eapply list_elem_of_lookup_2).
      assert (b ≠ LF) as Hb1
        by (intros ->; apply Hlf; by eapply list_elem_of_lookup_2).
      apply byte_eqb_false in Hb0, Hb1. rewrite Hb0, Hb1. simpl.
      destruct (IH (drop 127 l) (take 127 l ++ [NUL]) (osize + 128)%nat
                  (Some (block_of pf (osize + 128) (acc ++ take 127 l)))
                  (acc ++ take 127 l) (behind ++ take 127 l)) as [osize' Hres].
      * rewrite length_drop. lia.
      * rewrite length_app, length_take_le by lia. reflexivity.
      * pose proof (accumulated_step pf osize acc (take 127 l)
                      (proj1 Hacc) Hnul1 Hle) as Hstep.
        rewrite length_take_le in Hstep by lia. exact Hstep.
      * rewrite length_app, length_take_le by lia. lia.
      * intros Hin. apply Hnul. by eapply subseteq_drop.
      * intros Hin. apply Hlf. by eapply subseteq_drop.
      * rewrite length_drop. lia.
      * exists osize'. rewrite Hres.
        rewrite <- !app_assoc. rewrite (app_assoc (take 127 l) (drop 127 l)), take_drop.
        assert (match drop 127 l with
                | [] => c_str (<[126%nat:=NUL]> (take 127 l ++ [NUL]))
                | _ => repeated_tail (drop 127 l)
                end = repeated_tail l) as ->.
        { destruct (drop 127 l) as [|x t] eqn:Hd.
          - apply (f_equal length) in Hd. rewrite length_drop in Hd. simpl in Hd.
            rewrite c_str_stale_chunk by (rewrite ?length_take_le by lia; done).
            rewrite repeated_tail_one_chunk by lia.
            rewrite take_take. reflexivity.
          - rewrite <- Hd. apply repeated_tail_drop.
            apply (f_equal length) in Hd. rewrite length_drop in Hd. simpl in Hd. lia. }
        destruct l; [done | reflexivity].
Qed.

(** A last line [l] without a newline is returned whole, followed by
    [repeated_tail l]: by nothing, unless its length is a multiple of
    127. *)
Lemma hxfile_read_line_unterminated behind l :
  l ≠ [] -> NUL ∉ l -> LF ∉ l ->
  (char_signed pf = true -> head l ≠ Some xff) ->
  (N.of_nat (2 * length l + 128) <= malloc_max pf)%N ->
  exists blk,
    hxfile_read_line pf (Some (InStream behind l))
    = Done (Some blk, Some (InStream (behind ++ l) []))
    /\ c_str blk = l ++ repeated_tail l.
Proof.
  intros Hne Hnul Hlf Hfront Hmem. destruct l as [|b l]; [done|].
  assert (to_char pf (byte_to_Z b) ≠ EOF) as Hb
    by (rewrite to_char_eof; intros [Hs ->]; by apply (Hfront Hs)).
  rewrite (hxfile_read_line_peeked pf behind b l Hb).
  destruct (read_line_loop_eof (S (S (length l))) (b :: l) (fresh pf 128) 0 None []
              behind) as [osize' Hloop].
  - simpl. lia.
  - apply length_fresh.
  - split; [apply not_elem_of_nil | reflexivity].
  - simpl. lia.
  - exact Hnul.
  - exact Hlf.
  - lia.
  - rewrite Hloop. cbn [mbind outcome_bind]. eexists. split; [reflexivity|].
    apply c_str_block_of. change (NUL ∉ (b :: l) ++ repeated_tail (b :: l)).
    apply not_elem_of_app. split; [exact Hnul|].
    unfold repeated_tail. destruct (_ =? _)%nat; [|apply not_elem_of_nil].
    intros Hin. apply Hnul. eapply subseteq_drop, subseteq_take, Hin.
Qed.
End unterminated.

Example hxfile_read_line_500_bytes :
  exists blk,
    hxfile_read_line x86_64 (Some (InStream [] (replicate 500 "x"%byte)))
    = Done (Some blk, Some (InStream ([] ++ replicate 500 "x"%byte) []))
    /\ c_str blk = replicate 500 "x"%byte ++ [].
Proof.
  apply (hxfile_read_line_unterminated x86_64 [] (replicate 500 "x"%byte));
    [discriminate | compute_done | compute_done | discriminate
    | vm_compute; discriminate].
Qed.

(** ** A long line *)

(** C2. A line longer than the chunk is not always returned as it is: when
    the stream ends right after a chunk of 127 bytes, the next [fgets]
    reads nothing and leaves [buf] as it was, and the first 126 bytes of
    the previous chunk are appended a second time. Here the line is 127
    times ['a'] and 127 times ['b'], and 380 bytes are returned. *)
Theorem hxfile_read_line_repeats_chunk_at_eof :
  let l := replicate 127 "a"%byte ++ replicate 127 "b"%byte in
  returned_line (hxfile_read_line x86_64 (Some (InStream [] l)))
  = Some (l ++ replicate 126 "b"%byte).
Proof. vm_compute. reflexivity. Qed.


(** ** The lines [hxfile_read_lines] counts *)

Section counting.
Implicit Types B pre suf m : list byte.

Lemma load_middle pre (b : byte) suf :
  load (pre ++ b :: suf) (Z.of_nat (length pre)) = Done b.
Proof.
  unfold load. destruct (Z.ltb_spec (Z.of_nat (length pre)) 0); [lia|].
  rewrite Nat2Z.id, lookup_app_r by lia. by rewrite Nat.sub_diag.
Qed.

Lemma count_loop_spec suf : forall pre linec fuel,
  NUL ∉ suf -> (length suf < fuel)%nat ->
  count_loop fuel (pre ++ suf ++ [NUL]) (Z.of_nat (length pre)) linec
  = Done (Z.of_nat (length pre + length suf), (linec + count_lf suf)%nat).
Proof.
  induction suf as [|b suf IH]; intros pre linec [|fuel] Hnul Hfuel;
    simpl in Hfuel; try lia.
  - cbn [count_loop app]. rewrite load_middle. simpl.
    by rewrite !Nat.add_0_r.
  - apply not_elem_of_cons in Hnul as [Hb Hnul].
    cbn [count_loop]. rewrite <- app_comm_cons, load_middle.
    cbn [mbind outcome_bind].
    apply not_eq_sym, byte_eqb_false in Hb. rewrite Hb.
    replace (pre ++ b :: suf ++ [NUL]) with ((pre ++ [b]) ++ suf ++ [NUL])
      by (by rewrite <- app_assoc).
    replace (Z.of_nat (length pre) + 1) with (Z.of_nat (length (pre ++ [b])))
      by (rewrite length_app; simpl; lia).
    rewrite IH by (exact Hnul || lia).
    rewrite length_app. simpl. f_equal. f_equal; [lia|].
    destruct (Byte.eqb b LF); lia.
Qed.

(** The byte [*(pos - 1)] of a non-empty buffer is its last byte. *)
Lemma load_last B (b : byte) :
  last B = Some b -> load (B ++ [NUL]) (Z.of_nat (length B) - 1) = Done b.
Proof.
  intros Hlast. rewrite last_lookup in Hlast.
  pose proof (lookup_lt_Some _ _ _ Hlast) as Hlt.
  unfold load. destruct (Z.ltb_spec (Z.of_nat (length B) - 1) 0); [lia|].
  replace (Z.to_nat (Z.of_nat (length B) - 1)) with (Init.Nat.pred (length B)) by lia.
  by rewrite lookup_app_l, Hlast by lia.
Qed.
End counting.

(** ** What [strtok] finds *)

Section tokens.
Implicit Types B S P Q Zt seg tok text : list byte.

Lemma segments_decomp S :
  exists seg ss,
    segments S = seg :: ss /\ (LF ∉ seg) /\
    ((ss = [] /\ S = seg) \/ (exists S', S = seg ++ LF :: S' /\ segments S' = ss)).
Proof.
  induction S as [|b S IH]; simpl.
  - exists [], []. split; [reflexivity|]. split; [apply not_elem_of_nil | by left].
  - destruct (Byte.eqb b LF) eqn:Hb.
    + apply byte_eqb_true in Hb as ->. exists [], (segments S).
      split; [reflexivity|]. split; [apply not_elem_of_nil|]. right. by exists S.
    + destruct IH as (seg & ss & -> & Hlf & Hcase). exists (b :: seg), ss.
      split; [reflexivity|]. split.
      * apply not_elem_of_cons. split; [|exact Hlf].
        apply byte_eqb_false in Hb. congruence.
      * destruct Hcase as [[-> ->]|(S' & -> & Hs)]; [by left|].
        right. by exists S'.
Qed.

Lemma is_delim_LF (b : byte) : is_delim [LF] b = Byte.eqb b LF.
Proof. unfold is_delim. simpl. by rewrite orb_false_r. Qed.

Lemma strpbrk_end seg r :
  NUL ∉ seg -> LF ∉ seg -> strpbrk (seg ++ NUL :: r) [LF] = Some (inr (length seg)).
Proof.
  induction seg as [|b seg IH]; intros Hnul Hlf; [reflexivity|].
  apply not_elem_of_cons in Hnul as [Hb0 Hnul].
  apply not_elem_of_cons in Hlf as [Hb1 Hlf].
  apply not_eq_sym, byte_eqb_false in Hb0, Hb1.
  cbn [strpbrk app]. rewrite is_delim_LF, Hb0, Hb1, (IH Hnul Hlf). reflexivity.
Qed.

Lemma strpbrk_delim seg r :
  NUL ∉ seg -> LF ∉ seg -> strpbrk (seg ++ LF :: r) [LF] = Some (inl (length seg)).
Proof.
  induction seg as [|b seg IH]; intros Hnul Hlf; [reflexivity|].
  apply not_elem_of_cons in Hnul as [Hb0 Hnul].
  apply not_elem_of_cons in Hlf as [Hb1 Hlf].
  apply not_eq_sym, byte_eqb_false in Hb0, Hb1.
  cbn [strpbrk app]. rewrite is_delim_LF, Hb0, Hb1, (IH Hnul Hlf). reflexivity.
Qed.

(** A newline at the saved position is skipped. *)
Lemma strtok_skip P r :
  strtok (P ++ LF :: r) None [LF] (length P)
  = strtok (P ++ LF :: r) None [LF] (length (P ++ [LF])).
Proof.
  assert (drop (length (P ++ [LF])) (P ++ LF :: r) = r) as Hdrop.
  { replace (P ++ LF :: r) with ((P ++ [LF]) ++ r) by (by rewrite <- app_assoc).
    apply drop_app_length. }
  unfold strtok. cbn [from_option id].
  rewrite Hdrop, drop_app_length. cbn [strspn]. rewrite is_delim_LF.
  change (Byte.eqb LF LF) with true. cbv iota.
  replace (length P + S (strspn r [LF]))%nat
    with (length (P ++ [LF]) + strspn r [LF])%nat
    by (rewrite length_app; simpl; lia).
  reflexivity.
Qed.

(** At the end of the string there is no token. *)
Lemma strtok_stop P Zt :
  strtok (P ++ NUL :: Zt) None [LF] (length P) = Done (None, P ++ NUL :: Zt, length P).
Proof.
  unfold strtok. cbn [from_option id]. rewrite drop_app_length. cbn [strspn].
  rewrite is_delim_LF. change (Byte.eqb NUL LF) with false. cbv iota.
  rewrite Nat.add_0_r, load_middle. reflexivity.
Qed.

(** A token that the end of the string ends. *)
Lemma strtok_last P (b : byte) seg Zt :
  b ≠ LF -> NUL ∉ b :: seg -> LF ∉ seg ->
  strtok (P ++ (b :: seg) ++ NUL :: Zt) None [LF] (length P)
  = Done (Some (length P), P ++ (b :: seg) ++ NUL :: Zt,
          (length P + length (b :: seg))%nat).
Proof.
  intros Hb Hnul Hlf. unfold strtok. cbn [from_option id].
  rewrite drop_app_length. cbn [strspn app]. rewrite is_delim_LF.
  apply byte_eqb_false in Hb as Hb'. rewrite Hb'. rewrite Nat.add_0_r.
  rewrite drop_app_length, load_middle. cbn [mbind outcome_bind].
  apply not_elem_of_cons in Hnul as Hnul'. destruct Hnul' as [Hb0 _].
  apply not_eq_sym, byte_eqb_false in Hb0. rewrite Hb0.
  change (b :: seg ++ NUL :: Zt) with ((b :: seg) ++ NUL :: Zt).
  rewrite strpbrk_end; [reflexivity | exact Hnul |].
  apply not_elem_of_cons. by split; [apply not_eq_sym|].
Qed.

(** A token that a newline ends: the newline becomes a terminator. *)
Lemma strtok_token P (b : byte) seg r :
  b ≠ LF -> NUL ∉ b :: seg -> LF ∉ seg ->
  strtok (P ++ (b :: seg) ++ LF :: r) None [LF] (length P)
  = Done (Some (length P), P ++ (b :: seg) ++ NUL :: r,
          (length P + length (b :: seg) + 1)%nat).
Proof.
  intros Hb Hnul Hlf. unfold strtok. cbn [from_option id].
  rewrite drop_app_length. cbn [strspn app]. rewrite is_delim_LF.
  apply byte_eqb_false in Hb as Hb'. rewrite Hb'. rewrite Nat.add_0_r.
  rewrite drop_app_length, load_middle. cbn [mbind outcome_bind].
  apply not_elem_of_cons in Hnul as Hnul'. destruct Hnul' as [Hb0 _].
  apply not_eq_sym, byte_eqb_false in Hb0. rewrite Hb0.
  change (b :: seg ++ LF :: r) with ((b :: seg) ++ LF :: r).
  rewrite strpbrk_delim;
    [| exact Hnul | apply not_elem_of_cons; by split; [apply not_eq_sym|]].
  rewrite store_inside by (rewrite !length_app; simpl; lia).
  cbn [mbind outcome_bind]. do 3 f_equal.
  replace (P ++ (b :: seg) ++ LF :: r) with ((P ++ b :: seg) ++ LF :: r)
    by (by rewrite <- app_assoc).
  replace (length P + length (b :: seg))%nat with (length (P ++ b :: seg) + 0)%nat
    by (rewrite length_app; lia).
  rewrite insert_app_r. simpl. by rewrite <- app_assoc.
Qed.
End tokens.

(** ** The calls of [strtok] *)

Section strtok_spec.
Implicit Types S P Q X Zt tok text : list byte.

Lemma tokens_at_lf p S :
  tokens_at p (segments (LF :: S)) = tokens_at (p + 1) (segments S).
Proof. simpl. by rewrite Nat.add_1_r. Qed.

(** One call of [strtok(NULL, "\n")] when the text is [P], already
    searched, the rest [S] of the string, and its terminator. *)
Lemma strtok_step S : forall P Zt,
  NUL ∉ S ->
  exists X S1,
    strtok (P ++ S ++ NUL :: Zt) None [LF] (length P)
    = Done (fst <$> head (tokens_at (length P) (segments S)),
            (P ++ X) ++ S1 ++ NUL :: Zt, length (P ++ X))
    /\ (NUL ∉ S1)
    /\ tokens_at (length (P ++ X)) (segments S1) = tail (tokens_at (length P) (segments S))
    /\ (length X + length S1 = length S)%nat
    /\ match head (tokens_at (length P) (segments S)) with
       | None => True
       | Some (o, tok) =>
           (NUL ∉ tok) /\
           exists Q, length Q = o /\
             (P ++ X = Q ++ tok ++ [NUL] \/ (P ++ X = Q ++ tok /\ S1 = []))
       end.
Proof.
  induction S as [|b S IH]; intros P Zt Hnul.
  - exists [], []. rewrite !app_nil_r. cbn [app]. rewrite strtok_stop.
    repeat split; try reflexivity. apply not_elem_of_nil.
  - apply not_elem_of_cons in Hnul as Hnul'. destruct Hnul' as [Hb0 HnulS].
    destruct (Byte.eqb b LF) eqn:Hb.
    + (* a newline before the token *)
      apply byte_eqb_true in Hb as ->.
      destruct (IH (P ++ [LF]) Zt HnulS) as (X & S1 & Hstrtok & HS1 & Htl & Hlen & Htok).
      assert (length (P ++ [LF]) = (length P + 1)%nat) as HlenP
        by (rewrite length_app; reflexivity).
      rewrite HlenP, <- !tokens_at_lf in Htl, Htok, Hstrtok.
      exists (LF :: X), S1.
      replace (P ++ LF :: X) with ((P ++ [LF]) ++ X) by (by rewrite <- app_assoc).
      split; [|repeat split; try assumption; simpl; lia].
      cbn [app]. rewrite strtok_skip.
      replace (P ++ LF :: S ++ NUL :: Zt) with ((P ++ [LF]) ++ S ++ NUL :: Zt)
        by (by rewrite <- app_assoc).
      rewrite HlenP. exact Hstrtok.
    + (* the token starts here *)
      apply byte_eqb_false in Hb.
      destruct (segments_decomp S) as (seg & ss & Hseg & Hlf & Hcase).
      assert (tokens_at (length P) (segments (b :: S))
              = (length P, b :: seg) :: tokens_at (length P + length (b :: seg) + 1) ss) as ->.
      { cbn [segments]. apply byte_eqb_false in Hb. rewrite Hb, Hseg. reflexivity. }
      cbn [head tail fmap option_fmap option_map fst].
      destruct Hcase as [[-> ->]|(S' & -> & Hs)].
      * (* the last token *)
        exists (b :: seg), []. rewrite strtok_last by assumption.
        rewrite <- app_assoc, length_app. cbn [app].
        repeat split; try assumption; try reflexivity.
        -- apply not_elem_of_nil.
        -- simpl. lia.
        -- exists P. split; [reflexivity|]. right. by split.
      * exists ((b :: seg) ++ [NUL]), S'.
        assert (NUL ∉ b :: seg) as Hnulseg.
        { intros Hin. apply Hnul. rewrite app_comm_cons.
          apply elem_of_app. by left. }
        assert (NUL ∉ S') as HnulS'.
        { intros Hin. apply HnulS. apply elem_of_app. right.
          apply elem_of_cons. by right. }
        replace (P ++ (b :: seg ++ LF :: S') ++ NUL :: Zt)
          with (P ++ (b :: seg) ++ LF :: (S' ++ NUL :: Zt))
          by (cbn [app]; by rewrite <- app_assoc).
        rewrite strtok_token by assumption.
        assert ((length P + length (b :: seg) + 1)%nat
                = length (P ++ (b :: seg) ++ [NUL])) as Hl
          by (rewrite !length_app; simpl; lia).
        repeat split; try assumption.
        -- rewrite Hl. do 2 f_equal. rewrite <- !app_assoc. reflexivity.
        -- by rewrite <- Hl, Hs.
        -- rewrite !length_app. simpl. rewrite length_app. simpl. lia.
        -- exists P. split; [reflexivity|]. left. reflexivity.
Qed.
End strtok_spec.

Section strtok_calls.
Implicit Types S P Q X Zt tok text : list byte.
Implicit Types tl : list (nat * list byte).

Lemma c_str_at_token Q tok r :
  NUL ∉ tok -> c_str_at (Q ++ tok ++ NUL :: r) (length Q) = tok.
Proof.
  intros Hnul. unfold c_str_at. rewrite drop_app_length, (find_nul_app _ _ Hnul).
  by rewrite take_app_length.
Qed.

Lemma expect_S n tl : expect (S n) tl = (fst <$> head tl) :: expect n (tail tl).
Proof. by destruct tl as [|[o tok] tl]. Qed.

Lemma length_expect n : forall tl, length (expect n tl) = n.
Proof.
  induction n as [|n IH]; intros tl; [reflexivity|].
  rewrite expect_S. simpl. by rewrite IH.
Qed.

(** [n] calls in a row return the offsets of the next tokens, and leave
    each of them terminated in the text. *)
Lemma strtok_n_spec n : forall S P Zt,
  NUL ∉ S ->
  exists S' olds',
    strtok_n n (P ++ S ++ NUL :: Zt) (length P)
    = Done (expect n (tokens_at (length P) (segments S)), P ++ S' ++ NUL :: Zt, olds')
    /\ length S' = length S
    /\ Forall (fun ot => c_str_at (P ++ S' ++ NUL :: Zt) ot.1 = ot.2)
         (take n (tokens_at (length P) (segments S))).
Proof.
  induction n as [|n IH]; intros S P Zt Hnul.
  - exists S, (length P). repeat split. apply Forall_nil_2.
  - destruct (strtok_step S P Zt Hnul) as (X & S1 & Hstep & HS1 & Htl & Hlen & Htok).
    destruct (IH S1 (P ++ X) Zt HS1) as (S1' & olds' & Hn & Hlen' & Hall).
    exists (X ++ S1'), olds'.
    assert ((P ++ X) ++ S1' ++ NUL :: Zt = P ++ (X ++ S1') ++ NUL :: Zt) as Htext
      by (by rewrite <- !app_assoc).
    rewrite Htext in Hn, Hall. rewrite Htl in Hn, Hall.
    split; [|split].
    + cbn [strtok_n]. rewrite Hstep. cbn [mbind outcome_bind].
      rewrite Hn. cbn [mbind outcome_bind]. by rewrite expect_S.
    + rewrite length_app. lia.
    + destruct (tokens_at (length P) (segments S)) as [|[o tok] tl]; [apply Forall_nil_2|].
      cbn [take tail] in *. apply Forall_cons. split; [|exact Hall].
      cbn [head] in Htok. destruct Htok as (Htoknul & Q & <- & [HPX|[HPX ->]]).
      * rewrite <- Htext, HPX. cbn [fst snd].
        rewrite <- !app_assoc. cbn [app]. by apply c_str_at_token.
      * destruct S1' as [|? ?]; [|simpl in Hlen'; lia].
        rewrite <- Htext, HPX. cbn [fst snd app].
        rewrite <- !app_assoc. by apply c_str_at_token.
Qed.

Lemma store_slot_inside (out : list slot) (i : nat) (p : slot) :
  (i < length out)%nat -> store_slot out i p = Done (<[i := p]> out).
Proof. intros H. unfold store_slot. by rewrite decide_True. Qed.

Lemma store_slot_next (pre : list slot) (k : nat) (s : slot) :
  store_slot (pre ++ replicate (S k) Unset) (length pre) s
  = Done ((pre ++ [s]) ++ replicate k Unset).
Proof.
  unfold store_slot.
  rewrite decide_True by (rewrite length_app, length_replicate; lia).
  f_equal. replace (length pre) with (length pre + 0)%nat at 1 by lia.
  rewrite insert_app_r. simpl. by rewrite <- app_assoc.
Qed.

(** The loop that fills [out] makes the calls for the elements [i] to
    [linec - 1]. *)
Lemma fill_loop_spec fuel : forall i linec (pre : list slot) text olds,
  (i <= linec)%nat -> (linec - i < fuel)%nat -> length pre = i ->
  fill_loop fuel i linec (pre ++ replicate (linec + 1 - i) Unset) text olds
  = '(toks, text', olds') ← strtok_n (linec - i) text olds;
    Done (pre ++ map slot_of toks ++ [Unset], text', olds').
Proof.
  induction fuel as [|fuel IH]; intros i linec pre text olds Hi Hfuel Hpre; [lia|].
  cbn [fill_loop]. destruct (Nat.ltb_spec i linec) as [Hlt|Hge].
  - replace (linec - i)%nat with (S (linec - S i)) by lia.
    replace (linec + 1 - i)%nat with (S (linec + 1 - S i)) by lia.
    cbn [strtok_n].
    destruct (strtok text None [LF] olds) as [[[tok text1] olds1]|f]; [|reflexivity].
    cbn [mbind outcome_bind]. rewrite <- Hpre at 2. rewrite store_slot_next.
    cbn [mbind outcome_bind].
    rewrite IH by (rewrite ?length_app; simpl; lia).
    destruct (strtok_n (linec - S i) text1 olds1) as [[[toks text2] olds2]|f];
      [|reflexivity].
    cbn [mbind outcome_bind map]. by rewrite <- !app_assoc.
  - replace (linec - i)%nat with 0%nat by lia.
    replace (linec + 1 - i)%nat with 1%nat by lia. reflexivity.
Qed.

Lemma strings_of_expect text n : forall tl,
  strings_of text (map slot_of (expect n tl) ++ [Null])
  = map (fun ot => c_str_at text ot.1) (take n tl).
Proof.
  induction n as [|n IH]; intros tl; [reflexivity|].
  destruct tl as [|[o tok] tl]; [reflexivity|].
  cbn [expect map app strings_of slot_of take fst]. by rewrite IH.
Qed.

Lemma map_snd_tokens_at (ss : list (list byte)) : forall p,
  map snd (tokens_at p ss) = filter (fun s => nonempty s = true) ss.
Proof.
  induction ss as [|s ss IH]; intros p; [reflexivity|].
  destruct s as [|b s]; cbn [tokens_at].
  - rewrite filter_cons_False by (simpl; congruence). apply IH.
  - rewrite filter_cons_True by reflexivity. cbn [map snd]. by rewrite IH.
Qed.
End strtok_calls.

Section line_counts.
Implicit Types B s : list byte.
Implicit Types ss : list (list byte).

Lemma length_segments B : length (segments B) = (count_lf B + 1)%nat.
Proof.
  induction B as [|b B IH]; [reflexivity|]. cbn [segments count_lf].
  destruct (Byte.eqb b LF); simpl; [by rewrite IH|].
  destruct (segments B) as [|s ss]; simpl in *; lia.
Qed.

Lemma segments_not_nil B : segments B ≠ [].
Proof.
  destruct B as [|b B]; cbn [segments]; [discriminate|].
  destruct (Byte.eqb b LF); [discriminate|]. by destruct (segments B).
Qed.

(** The last segment is not empty exactly when the buffer ends with a byte
    that is not a newline. *)
Lemma last_segments B :
  exists s, last (segments B) = Some s
            /\ nonempty s = match last B with
                            | Some b => negb (Byte.eqb b LF)
                            | None => false
                            end.
Proof.
  induction B as [|b B IH]; [by exists []|].
  destruct IH as (s & Hlast & Hs). cbn [segments].
  destruct (Byte.eqb b LF) eqn:Hb.
  - apply byte_eqb_true in Hb as ->. exists s.
    destruct (segments B) as [|s0 ss] eqn:Hseg; [discriminate|].
    split; [exact Hlast|]. destruct B as [|b' B]; [|exact Hs].
    simpl in Hseg. injection Hseg as <- <-. by injection Hlast as <-.
  - destruct (segments B) as [|s0 ss] eqn:Hseg; [discriminate|].
    destruct ss as [|s1 ss].
    + exists (b :: s0). split; [reflexivity|]. cbn [nonempty].
      destruct B as [|b' B]; [cbn [last]; by rewrite Hb|].
      change (last (b :: b' :: B)) with (last (b' :: B)).
      injection Hlast as <-. rewrite <- Hs.
      destruct s0; [|reflexivity].
      destruct (segments_decomp (b' :: B)) as (seg & ss' & Hseg' & _ & Hcase).
      rewrite Hseg in Hseg'. injection Hseg' as <- <-.
      destruct Hcase as [[_ ?]|(S' & _ & HS')]; [discriminate|].
      by apply segments_not_nil in HS'.
    + exists s. split; [exact Hlast|].
      destruct B as [|b' B]; [discriminate|].
      change (last (b :: b' :: B)) with (last (b' :: B)). exact Hs.
Qed.

Lemma length_filter_last {A} (f : A -> bool) (l : list A) (x : A) :
  last l = Some x ->
  (length (filter (fun a => f a = true) l) + (if f x then 0 else 1) <= length l)%nat.
Proof.
  induction l as [|a l IH]; [discriminate|]. intros Hlast.
  destruct l as [|a' l].
  - injection Hlast as ->. destruct (f x) eqn:Hfx.
    + rewrite filter_cons_True by exact Hfx. simpl. lia.
    + rewrite filter_cons_False by congruence. simpl. lia.
  - specialize (IH Hlast). destruct (f a) eqn:Hfa.
    + rewrite filter_cons_True by exact Hfa. simpl in *. lia.
    + rewrite filter_cons_False by congruence. simpl in *. lia.
Qed.

(** There are at most as many tokens as lines were counted. *)
Lemma length_tokens_at B p :
  (length (tokens_at p (segments B)) <= line_count B)%nat.
Proof.
  rewrite <- (length_map snd), map_snd_tokens_at.
  destruct (last_segments B) as (s & Hlast & Hs).
  pose proof (length_filter_last nonempty _ _ Hlast) as Hle.
  rewrite length_segments, Hs in Hle. unfold line_count.
  destruct (last B) as [b|]; [destruct (Byte.eqb b LF)|]; simpl in *; lia.
Qed.
End line_counts.

(** [hxfile_read_lines] on a file that is not empty and holds text [B]:
    the array holds the offsets of the tokens [strtok] finds, then null
    pointers, one element for every line counted and a last, null one;
    the strings its elements point to are the segments of [B] that are
    not empty. The file system sees one [fopen], one [fread] and one
    [fclose]. *)
Lemma hxfile_read_lines_text (pf : platform) (w : world) (path : string)
    (B : list byte) :
  files w !! path = Some B ->
  B ≠ [] -> NUL ∉ B ->
  (N.of_nat (length B + 1) <= malloc_max pf)%N ->
  (N.of_nat ((line_count B + 1) * sizeof_ptr pf) <= malloc_max pf)%N ->
  exists S',
    hxfile_read_lines pf w (Some path)
    = Done (Some {| out := map slot_of (expect (line_count B)
                                          (tokens_at 0 (segments B))) ++ [Null];
                    text := S' ++ [NUL] |},
            log Fclose (log (Fread (length B)) (log (Fopen path "r" true) w)))
    /\ length S' = length B
    /\ strings_of (S' ++ [NUL])
         (map slot_of (expect (line_count B) (tokens_at 0 (segments B))) ++ [Null])
       = filter (fun s => nonempty s = true) (segments B).
Proof.
  intros Hfile Hne Hnul Hmem1 Hmem2.
  unfold hxfile_read_lines, hxfile_read.
  rewrite (read_existing pf _ _ _ _ Hfile).
  apply N.leb_le in Hmem1 as Hmem1'. rewrite Hmem1'. cbn [mbind outcome_bind].
  (* the count *)
  pose proof (count_loop_spec B [] 0 (S (length (B ++ [NUL]))) Hnul) as Hcount.
  rewrite length_app in Hcount. cbn [app length] in Hcount.
  change (Z.of_nat 0) with 0 in Hcount.
  rewrite length_app. cbn [length].
  rewrite Hcount by lia. clear Hcount. cbn [mbind outcome_bind].
  destruct (last B) as [b|] eqn:Hlast;
    [|by apply last_None in Hlast].
  replace (Z.of_nat (0 + length B) - 1) with (Z.of_nat (length B) - 1) by lia.
  rewrite (load_last B b Hlast). cbn [mbind outcome_bind].
  assert (0 < length B)%nat as Hlen by (destruct B; simpl; [done | lia]).
  assert ((if negb (Byte.eqb b LF) && (Z.of_nat (0 + length B) >? 0)
           then S (0 + count_lf B) else (0 + count_lf B)%nat) = line_count B) as ->.
  { unfold line_count. rewrite Hlast.
    destruct (Z.gtb_spec (Z.of_nat (0 + length B)) 0); [|lia].
    destruct (Byte.eqb b LF); simpl; lia. }
  unfold malloc. apply N.leb_le in Hmem2 as Hmem2'. rewrite Hmem2'.
  (* the calls of strtok *)
  pose proof (length_tokens_at B 0) as Htoks.
  assert (1 <= line_count B)%nat as Hlc.
  { unfold line_count. rewrite Hlast. destruct (Byte.eqb b LF) eqn:Hb; [|lia].
    apply byte_eqb_true in Hb as ->.
    destruct B as [|x B]; [done|]. clear -Hlast. revert x Hlast.
    induction B as [|y B IH]; intros x Hlast.
    - injection Hlast as ->. simpl. lia.
    - specialize (IH y Hlast). cbn [count_lf] in *. lia. }
  destruct (strtok_n_spec (line_count B) B [] [] Hnul)
    as (S' & olds' & Hn & HlenS & Hall).
  cbn [app length] in Hn, Hall.
  change (strtok (B ++ [NUL]) (Some 0%nat) [LF] 0)
    with (strtok (B ++ [NUL]) None [LF] 0).
  destruct (line_count B) as [|n] eqn:Hlc'; [lia|].
  cbn [strtok_n] in Hn.
  destruct (strtok (B ++ [NUL]) None [LF] 0) as [[[tok text1] olds1]|f];
    [|discriminate].
  cbn [mbind outcome_bind] in Hn |- *.
  replace (S n + 1)%nat with (S (S n)) by lia. cbn [replicate].
  rewrite (store_slot_inside _ 0) by (simpl; lia).
  cbn [mbind outcome_bind]. cbn [insert list_insert].
  pose proof (fill_loop_spec (S (S n)) 1 (S n) [slot_of tok] text1 olds1) as Hfill.
  replace (S n + 1 - 1)%nat with (S n) in Hfill by lia.
  cbn [app replicate] in Hfill. rewrite Hfill by (simpl; lia). clear Hfill.
  replace (S n - 1)%nat with n by lia.
  destruct (strtok_n n text1 olds1) as [[[toks text2] olds2]|f]; [|discriminate].
  cbn [mbind outcome_bind] in Hn |- *.
  pose proof (f_equal (fun r => match r with
                                | Done (a, _, _) => a
                                | Fault _ => []
                                end) Hn) as Hexp.
  pose proof (f_equal (fun r => match r with
                                | Done (_, t, _) => t
                                | Fault _ => []
                                end) Hn) as Htext.
  cbv beta iota in Hexp, Htext. subst text2. clear Hn.
  assert (length toks = n) as Hlentoks.
  { apply (f_equal length) in Hexp. rewrite length_expect in Hexp. simpl in Hexp. lia. }
  assert (store_slot (slot_of tok :: map slot_of toks ++ [Unset]) (S n) Null
          = Done (map slot_of (tok :: toks) ++ [Null])) as ->.
  { unfold store_slot.
    rewrite decide_True by (simpl; rewrite length_app, length_map; simpl; lia).
    f_equal. cbn [map]. rewrite app_comm_cons.
    replace (S n) with (length (slot_of tok :: map slot_of toks) + 0)%nat
      by (simpl; rewrite length_map; lia).
    by rewrite insert_app_r. }
  cbn [mbind outcome_bind]. rewrite Hexp.
  exists S'. split; [reflexivity|]. split; [exact HlenS|].
  rewrite strings_of_expect.
  rewrite take_ge by lia.
  rewrite <- (map_snd_tokens_at _ 0).
  apply list_eq_Forall2. apply Forall2_fmap.
  apply Forall_Forall2_diag. rewrite take_ge in Hall by lia. exact Hall.
Qed.

(** For a buffer [B] that is not empty and holds text, the lines
    [hxfile_read_lines] delivers are the segments of [B] that are not
    empty, in their order; the array has a slot for every line counted,
    and a last one. *)
Theorem split_lines_nonempty_segments (pf : platform) (B : list byte) :
  B ≠ [] -> NUL ∉ B ->
  (N.of_nat (length B + 1) <= malloc_max pf)%N ->
  (N.of_nat ((line_count B + 1) * sizeof_ptr pf) <= malloc_max pf)%N ->
  exists r,
    split_lines pf B = Done (Some r)
    /\ lines_of r = filter (fun s => nonempty s = true) (segments B)
    /\ length (out r) = (line_count B + 1)%nat.
Proof.
  intros Hne Hnul Hmem1 Hmem2.
  destruct (hxfile_read_lines_text pf (world_with "in.txt" B) "in.txt" B)
    as (S' & Hr & _ & Hstr); [apply lookup_singleton_eq | assumption..|].
  unfold split_lines. rewrite Hr. eexists. split; [reflexivity|].
  split; [exact Hstr|]. cbn [out].
  rewrite length_app, length_map, length_expect. reflexivity.
Qed.

(** X4. The lines delivered for a buffer without a final newline end with
    the buffer's last segment. *)
Lemma split_lines_last_segment (pf : platform) (B : list byte) (b : byte) :
  NUL ∉ B -> last B = Some b -> b ≠ LF ->
  (N.of_nat (length B + 1) <= malloc_max pf)%N ->
  (N.of_nat ((line_count B + 1) * sizeof_ptr pf) <= malloc_max pf)%N ->
  exists r,
    split_lines pf B = Done (Some r)
    /\ last (lines_of r) = last (segments B).
Proof.
  intros Hnul Hlast Hb Hmem1 Hmem2.
  destruct (split_lines_nonempty_segments pf B) as (r & Hr & Hlines & _);
    [by intros -> | assumption..|].
  exists r. split; [exact Hr|]. rewrite Hlines.
  destruct (last_segments B) as (s & Hs & Hne). rewrite Hlast in Hne.
  apply byte_eqb_false in Hb. rewrite Hb in Hne. cbn [negb] in Hne.
  rewrite Hs. revert Hs. generalize (segments B). intros ss.
  induction ss as [|s0 ss IH]; [discriminate|]. intros Hs.
  destruct ss as [|s1 ss].
  - injection Hs as ->. by rewrite filter_cons_True.
  - specialize (IH Hs).
    destruct (nonempty s0) eqn:Hs0.
    + rewrite filter_cons_True by exact Hs0.
      destruct (filter _ (s1 :: ss)) as [|x l] eqn:Hf; [discriminate | exact IH].
    + rewrite filter_cons_False by congruence. exact IH.
Qed.

Lemma join_segments (B : list byte) : join LF (segments B) = B.
Proof.
  induction B as [|b B IH]; [reflexivity|]. cbn [segments].
  destruct (Byte.eqb b LF) eqn:Hb.
  - apply byte_eqb_true in Hb as ->.
    destruct (segments B) as [|s ss] eqn:Hseg; [by apply segments_not_nil in Hseg|].
    cbn [join app]. cbn [join] in IH. by rewrite IH.
  - destruct (segments B) as [|s ss] eqn:Hseg; [by apply segments_not_nil in Hseg|].
    destruct ss as [|s1 ss]; cbn [join app] in *; by rewrite IH.
Qed.

(** X3. The split is lossless for a buffer that has no empty line (and
    does not end with a newline): the lines delivered are its segments,
    and joined with newlines they are the buffer. *)
Lemma split_lines_lossless_without_empty_line (pf : platform) (B : list byte) :
  NUL ∉ B -> Forall (fun s => nonempty s = true) (segments B) ->
  (N.of_nat (length B + 1) <= malloc_max pf)%N ->
  (N.of_nat ((line_count B + 1) * sizeof_ptr pf) <= malloc_max pf)%N ->
  exists r,
    split_lines pf B = Done (Some r)
    /\ lines_of r = segments B
    /\ join LF (lines_of r) = B.
Proof.
  intros Hnul Hall Hmem1 Hmem2.
  destruct (split_lines_nonempty_segments pf B) as (r & Hr & Hlines & _);
    [|assumption..|].
  - intros ->. by inversion Hall.
  - exists r. split; [exact Hr|].
    assert (lines_of r = segments B) as ->.
    { rewrite Hlines. clear -Hall. induction Hall as [|s ss Hs _ IH]; [reflexivity|].
      rewrite filter_cons_True by exact Hs. by rewrite IH. }
    split; [reflexivity | apply join_segments].
Qed.

Example split_lines_two_lines :
  exists r,
    split_lines x86_64 (bytes "ab" ++ LF :: bytes "cd" ++ [LF]) = Done (Some r)
    /\ lines_of r = [bytes "ab"; bytes "cd"]
    /\ length (out r) = 3%nat.
Proof.
  apply (split_lines_nonempty_segments x86_64 (bytes "ab" ++ LF :: bytes "cd" ++ [LF]));
    [discriminate | compute_done | vm_compute; discriminate..].
Qed.

(** ** Splitting a buffer into lines *)

(** C5. ["a\n\nb"] is not split into ["a"], an empty line and ["b"]:
    three lines are counted, but [strtok] skips a run of delimiters, so
    that the array holds the two strings ["a"] and ["b"] and two null
    pointers. *)
Theorem split_lines_drops_empty_line :
  exists r,
    split_lines x86_64 (bytes "a" ++ [LF; LF] ++ bytes "b") = Done (Some r)
    /\ out r = [Tok 0; Tok 3; Null; Null]
    /\ lines_of r = [bytes "a"; bytes "b"]
    /\ lines_of r ≠ [bytes "a"; []; bytes "b"].
Proof.
  eexists. split; [vm_compute; reflexivity|]. by repeat split.
Qed.

(** C1. The split of a buffer without a final newline ends with the
    buffer's last segment, but it is not lossless: the lines of
    ["a\n\nb"], joined with newlines, are ["a\nb"]. *)
Theorem split_lines_join_loses_empty_line :
  let B := bytes "a" ++ [LF; LF] ++ bytes "b" in
  exists r,
    split_lines x86_64 B = Done (Some r)
    /\ last (lines_of r) = Some (bytes "b")
    /\ join LF (lines_of r) = bytes "a" ++ [LF] ++ bytes "b"
    /\ join LF (lines_of r) ≠ B.
Proof.
  eexists. split; [vm_compute; reflexivity|]. by repeat split.
Qed.

(** C9. On an empty buffer the split reads the byte before the buffer:
    [*(pos - 1)] is evaluated with [pos == text], before [pos > text] is
    tested. This is so on every platform on which the one-byte buffer can
    be allocated at all. *)
Theorem split_lines_empty_reads_before_buffer :
  split_lines x86_64 [] = Fault (OutOfBounds (-1))
  /\ forall pf : platform, exists f, split_lines pf [] = Fault f.
Proof.
  split; [vm_compute; reflexivity|].
  intros pf. unfold split_lines, hxfile_read_lines, hxfile_read.
  assert (files (world_with "in.txt" []) !! "in.txt"%string = Some []) as Hfile
    by apply lookup_singleton_eq.
  rewrite (read_existing pf _ _ _ _ Hfile).
  destruct (_ <=? _)%N; by eexists.
Qed.

(** * Further properties of the code *)

(** ** Reading a stream line by line *)

Section line_by_line.
Variable pf : platform.
Implicit Types l t behind rest : list byte.
Implicit Types ls : list (list byte).

(** A line of text and its newline are returned, and the stream is left
    after the newline. *)
Lemma hxfile_read_line_text_line behind l rest :
  text_line pf l ->
  (N.of_nat (2 * (length l + 1)) <= malloc_max pf)%N ->
  exists blk,
    hxfile_read_line pf (Some (InStream behind (l ++ LF :: rest)))
    = Done (Some blk, Some (InStream (behind ++ l ++ [LF]) rest))
    /\ c_str blk = l ++ [LF].
Proof.
  intros (Hnul & Hlf & Hfront) Hmem.
  assert (exists b ahead, l ++ LF :: rest = b :: ahead
                          /\ to_char pf (byte_to_Z b) ≠ EOF) as (b & ahead & E & Hb).
  { destruct l as [|b l'].
    - exists LF, rest. split; [reflexivity|]. rewrite to_char_eof. intros [_ ?]. discriminate.
    - exists b, (l' ++ LF :: rest). split; [reflexivity|].
      rewrite to_char_eof. intros [Hs ->]. by apply (Hfront Hs). }
  rewrite E, (hxfile_read_line_peeked pf behind b ahead Hb), <- E.
  destruct (read_line_loop_newline pf (S (S (length ahead))) l (fresh pf 128) 0 None []
              behind rest) as [osize' Hloop];
    [ apply (f_equal length) in E; rewrite length_app in E; simpl in E; lia
    | apply length_fresh
    | split; [apply not_elem_of_nil | reflexivity]
    | simpl; lia | exact Hnul | exact Hlf | lia | ].
  rewrite Hloop. cbn [mbind outcome_bind]. eexists. split; [reflexivity|].
  rewrite app_nil_l. apply c_str_block_of. apply not_elem_of_app. split; [exact Hnul|].
  apply not_elem_of_cons. split; [discriminate | apply not_elem_of_nil].
Qed.

(** Where [char] is signed, the end of the stream gives the null result. *)
Lemma hxfile_read_line_at_eof behind :
  char_signed pf = true ->
  hxfile_read_line pf (Some (InStream behind [])) = Done (None, Some (InStream behind [])).
Proof. intros Hs. unfold hxfile_read_line, to_char. cbn [getc]. by rewrite Hs. Qed.

Lemma length_unlines_cons l ls :
  length (unlines (l :: ls)) = (length l + 1 + length (unlines ls))%nat.
Proof. unfold unlines. cbn [map concat]. rewrite !length_app. simpl. lia. Qed.

(** X12. Where [char] is signed, reading a text stream line by line until
    the null result returns its lines in their order, each with its
    newline, then the last line if no newline ends it, and leaves the
    stream at its end. The stream is text in which no line starts with
    the byte 0xFF (no zero byte either), and the allocations succeed. (A
    last line whose length is a multiple of 127 is left out here: it is
    not returned as it is.) *)
Theorem read_all_lines_returns_the_lines ls : forall behind t fuel,
  char_signed pf = true ->
  Forall (text_line pf) ls ->
  t = [] \/ (text_line pf t /\ (length t mod 127 ≠ 0)%nat) ->
  (N.of_nat (2 * length (unlines ls ++ t) + 128) <= malloc_max pf)%N ->
  (length ls + 1 < fuel)%nat ->
  read_all_lines pf fuel (Some (InStream behind (unlines ls ++ t)))
  = Done (map (fun l => l ++ [LF]) ls ++ (if nonempty t then [t] else []),
          Some (InStream (behind ++ unlines ls ++ t) [])).
Proof.
  induction ls as [|l ls IH]; intros behind t fuel Hs Hls Ht Hmem Hfuel.
  - cbn [unlines map concat app] in *.
    destruct fuel as [|[|fuel]]; [simpl in Hfuel; lia..|].
    destruct Ht as [->|[(Hnul & Hlf & Hfront) Hmod]].
    + cbn [read_all_lines]. rewrite (hxfile_read_line_at_eof _ Hs).
      cbn [mbind outcome_bind nonempty]. by rewrite app_nil_r.
    + destruct t as [|b t]; [simpl in Hmod; lia|].
      destruct (hxfile_read_line_unterminated pf behind (b :: t))
        as (blk & Hcall & Hstr); [discriminate | assumption.. | |].
      { lia. }
      assert (repeated_tail (b :: t) = []) as Htail.
      { unfold repeated_tail. by destruct (Nat.eqb_spec (length (b :: t) mod 127) 0). }
      rewrite Htail, app_nil_r in Hstr.
      change (read_all_lines pf (S (S fuel)) ?s)
        with ('(line, stream) ← hxfile_read_line pf s;
              match line with
              | None => Done ([], stream)
              | Some blk =>
                  '(ls, stream) ← read_all_lines pf (S fuel) stream;
                  Done (c_str blk :: ls, stream)
              end).
      rewrite Hcall. cbn [mbind outcome_bind read_all_lines].
      rewrite (hxfile_read_line_at_eof _ Hs). cbn [mbind outcome_bind nonempty].
      by rewrite Hstr.
  - apply Forall_cons in Hls as [Hl Hls].
    destruct fuel as [|fuel]; [lia|].
    assert (unlines (l :: ls) ++ t = l ++ LF :: (unlines ls ++ t)) as E
      by (unfold unlines; cbn [map concat]; by rewrite <- !app_assoc).
    pose proof (length_unlines_cons l ls) as Hlen.
    rewrite length_app in Hmem.
    destruct (hxfile_read_line_text_line behind l (unlines ls ++ t) Hl)
      as (blk & Hcall & Hstr); [lia|].
    rewrite E. cbn [read_all_lines]. rewrite Hcall. cbn [mbind outcome_bind].
    rewrite (IH (behind ++ l ++ [LF]) t fuel Hs Hls Ht);
      [| rewrite length_app; lia | simpl in Hfuel; lia].
    cbn [mbind outcome_bind map app]. rewrite Hstr.
    do 3 f_equal. rewrite <- !app_assoc. reflexivity.
Qed.
End line_by_line.

(** X10. A last line of text without a newline (no zero byte, a first
    byte that is not 0xFF where [char] is signed), whose length is not a
    multiple of 127, is returned as it is, and the stream is left at its
    end, provided the allocations succeed. *)
Theorem hxfile_read_line_whole_last_line (pf : platform) (behind l : list byte) :
  l ≠ [] -> text_line pf l -> (length l mod 127 ≠ 0)%nat ->
  (N.of_nat (2 * length l + 128) <= malloc_max pf)%N ->
  exists blk,
    hxfile_read_line pf (Some (InStream behind l))
    = Done (Some blk, Some (InStream (behind ++ l) []))
    /\ c_str blk = l.
Proof.
  intros Hne (Hnul & Hlf & Hfront) Hmod Hmem.
  destruct (hxfile_read_line_unterminated pf behind l Hne Hnul Hlf Hfront Hmem)
    as (blk & Hcall & Hstr).
  exists blk. split; [exact Hcall|]. rewrite Hstr. unfold repeated_tail.
  destruct (Nat.eqb_spec (length l mod 127) 0); [done | apply app_nil_r].
Qed.

Lemma hxfile_read_line_whole_last_line_witness :
  exists blk,
    hxfile_read_line x86_64 (Some (InStream (bytes "ab" ++ [LF]) (bytes "x")))
    = Done (Some blk, Some (InStream ((bytes "ab" ++ [LF]) ++ bytes "x") []))
    /\ c_str blk = bytes "x".
Proof.
  apply (hxfile_read_line_whole_last_line x86_64 (bytes "ab" ++ [LF]) (bytes "x")).
  - discriminate.
  - split; [compute_done | split; [compute_done | discriminate]].
  - vm_compute. discriminate.
  - vm_compute. discriminate.
Defined.

(** ** Writing and appending *)

Section writing.
Implicit Types t r : list byte.

(** [write] in a mode ["w..."]: the file holds the string written and
    nothing else. *)
Lemma write_truncates w path t r mode :
  NUL ∉ t -> path ∉ locked w ->
  exists w',
    write w (Some path) (Some (t ++ NUL :: r)) (Some (String "w" mode)) = Done (true, w')
    /\ files w' = <[path := t]> (files w)
    /\ locked w' = locked w
    /\ trace w' = trace w ++ [Fopen path (String "w" mode) true; Fputs path t; Fclose].
Proof.
  intros Ht Hw. unfold write, fopen. rewrite decide_False by exact Hw.
  unfold fputs. rewrite (strlen_app _ _ Ht). cbn [mbind outcome_bind].
  rewrite take_app_length. eexists. split; [reflexivity|].
  unfold content. cbn [fclose log set_file files locked trace].
  rewrite lookup_insert_eq, insert_insert_eq. cbn [default from_option id app].
  repeat split. by rewrite <- !app_assoc.
Qed.

(** [write] in a mode ["a..."]: the string written follows what the file
    held; a file that did not exist is created. *)
Lemma write_appends w path t r mode :
  NUL ∉ t -> path ∉ locked w ->
  exists w',
    write w (Some path) (Some (t ++ NUL :: r)) (Some (String "a" mode)) = Done (true, w')
    /\ files w' = <[path := content w path ++ t]> (files w)
    /\ locked w' = locked w
    /\ trace w' = trace w ++ [Fopen path (String "a" mode) true; Fputs path t; Fclose].
Proof.
  intros Ht Hw. unfold write, fopen. rewrite decide_False by exact Hw.
  unfold fputs. rewrite (strlen_app _ _ Ht). cbn [mbind outcome_bind].
  rewrite take_app_length. eexists. split; [reflexivity|].
  unfold content. cbn [fclose log set_file files locked trace].
  rewrite lookup_insert_eq, insert_insert_eq. cbn [default from_option id app].
  repeat split. by rewrite <- !app_assoc.
Qed.

Lemma content_insert w w' path c :
  files w' = <[path := c]> (files w) -> content w' path = c.
Proof. intros H. unfold content. by rewrite H, lookup_insert_eq. Qed.
End writing.

(** X13. [hxfile_write] and [hxfile_write_raw] on a path that can be written
    return [true] and leave in the file the characters of the string, and
    only them: what the file held is gone, what follows the terminator is
    not written, and no other file changes. *)
Theorem hxfile_write_replaces_content
    (w : world) (path : string) (t r : list byte) (raw : bool) :
  NUL ∉ t -> path ∉ locked w ->
  exists w',
    (if raw then hxfile_write_raw else hxfile_write) w (Some path) (Some (t ++ NUL :: r))
    = Done (true, w')
    /\ files w' = <[path := t]> (files w)
    /\ locked w' = locked w.
Proof.
  intros Ht Hw. destruct raw; unfold hxfile_write_raw, hxfile_write.
  - destruct (write_truncates w path t r "b" Ht Hw) as (w' & -> & Hf & Hl & _).
    by exists w'.
  - destruct (write_truncates w path t r EmptyString Ht Hw) as (w' & -> & Hf & Hl & _).
    by exists w'.
Qed.

Lemma hxfile_write_replaces_content_witness :
  exists w',
    hxfile_write (world_with "f" (bytes "old content")) (Some "f"%string)
      (Some (bytes "new" ++ NUL :: bytes "junk"))
    = Done (true, w')
    /\ files w' = <["f"%string := bytes "new"]> (files (world_with "f" (bytes "old content")))
    /\ locked w' = locked (world_with "f" (bytes "old content")).
Proof.
  apply (hxfile_write_replaces_content (world_with "f" (bytes "old content")) "f"
           (bytes "new") (bytes "junk") false).
  - compute_done.
  - compute_done.
Defined.

(** X14. [hxfile_append] and [hxfile_append_raw] on a path that can be
    written return [true] and add the characters of the string after what
    the file held (after nothing when there was no such file); no other
    file changes. *)
Theorem hxfile_append_extends_content
    (w : world) (path : string) (t r : list byte) (raw : bool) :
  NUL ∉ t -> path ∉ locked w ->
  exists w',
    (if raw then hxfile_append_raw else hxfile_append) w (Some path) (Some (t ++ NUL :: r))
    = Done (true, w')
    /\ files w' = <[path := content w path ++ t]> (files w)
    /\ locked w' = locked w.
Proof.
  intros Ht Hw. destruct raw; unfold hxfile_append_raw, hxfile_append.
  - destruct (write_appends w path t r "b" Ht Hw) as (w' & -> & Hf & Hl & _).
    by exists w'.
  - destruct (write_appends w path t r EmptyString Ht Hw) as (w' & -> & Hf & Hl & _).
    by exists w'.
Qed.

Lemma hxfile_append_extends_content_witness :
  exists w',
    hxfile_append_raw (world_with "f" (bytes "old")) (Some "f"%string)
      (Some (bytes "new" ++ NUL :: []))
    = Done (true, w')
    /\ files w' = <["f"%string := content (world_with "f" (bytes "old")) "f" ++ bytes "new"]>
                    (files (world_with "f" (bytes "old")))
    /\ locked w' = locked (world_with "f" (bytes "old")).
Proof.
  apply (hxfile_append_extends_content (world_with "f" (bytes "old")) "f"
           (bytes "new") [] true).
  - compute_done.
  - compute_done.
Defined.

(** X15. Two appends in a row leave the two strings, in the order of the
    calls, after what the file held. *)
Theorem hxfile_append_twice
    (w : world) (path : string) (t1 r1 t2 r2 : list byte) :
  NUL ∉ t1 -> NUL ∉ t2 -> path ∉ locked w ->
  exists w1 w2,
    hxfile_append w (Some path) (Some (t1 ++ NUL :: r1)) = Done (true, w1)
    /\ hxfile_append w1 (Some path) (Some (t2 ++ NUL :: r2)) = Done (true, w2)
    /\ files w2 = <[path := content w path ++ t1 ++ t2]> (files w).
Proof.
  intros Ht1 Ht2 Hw. unfold hxfile_append.
  destruct (write_appends w path t1 r1 EmptyString Ht1 Hw) as (w1 & Hw1 & Hf1 & Hl1 & _).
  destruct (write_appends w1 path t2 r2 EmptyString Ht2) as (w2 & Hw2 & Hf2 & _).
  { by rewrite Hl1. }
  exists w1, w2. split; [exact Hw1|]. split; [exact Hw2|].
  rewrite Hf2, (content_insert w w1 path _ Hf1), Hf1, insert_insert_eq.
  by rewrite <- app_assoc.
Qed.

Lemma hxfile_append_twice_witness :
  exists w1 w2,
    hxfile_append (world_with "other" []) (Some "f"%string) (Some (bytes "a" ++ NUL :: []))
    = Done (true, w1)
    /\ hxfile_append w1 (Some "f"%string) (Some (bytes "b" ++ NUL :: [])) = Done (true, w2)
    /\ files w2 = <["f"%string := content (world_with "other" []) "f" ++ bytes "a" ++ bytes "b"]>
                    (files (world_with "other" [])).
Proof.
  apply (hxfile_append_twice (world_with "other" []) "f" (bytes "a") [] (bytes "b") []).
  - compute_done.
  - compute_done.
  - compute_done.
Defined.

(** X16. On a path that cannot be opened for writing, the four writing
    operations return [false] after the failed [fopen]: nothing is
    written, and the file, if there is one, is not truncated. *)
Theorem write_unwritable_path_fails
    (w : world) (path : string) (text : list byte) :
  path ∈ locked w ->
  hxfile_write w (Some path) (Some text) = Done (false, log (Fopen path "w" false) w)
  /\ hxfile_write_raw w (Some path) (Some text) = Done (false, log (Fopen path "wb" false) w)
  /\ hxfile_append w (Some path) (Some text) = Done (false, log (Fopen path "a" false) w)
  /\ hxfile_append_raw w (Some path) (Some text) = Done (false, log (Fopen path "ab" false) w).
Proof.
  intros Hw.
  unfold hxfile_write, hxfile_write_raw, hxfile_append, hxfile_append_raw, write, fopen.
  rewrite !decide_True by exact Hw. by repeat split.
Qed.

Lemma write_unwritable_path_fails_witness :
  let w := {| files := {[ "ro"%string := bytes "keep" ]};
              locked := {[ "ro"%string ]}; trace := [] |} in
  hxfile_write w (Some "ro"%string) (Some (bytes "x" ++ [NUL]))
    = Done (false, log (Fopen "ro" "w" false) w)
  /\ hxfile_write_raw w (Some "ro"%string) (Some (bytes "x" ++ [NUL]))
    = Done (false, log (Fopen "ro" "wb" false) w)
  /\ hxfile_append w (Some "ro"%string) (Some (bytes "x" ++ [NUL]))
    = Done (false, log (Fopen "ro" "a" false) w)
  /\ hxfile_append_raw w (Some "ro"%string) (Some (bytes "x" ++ [NUL]))
    = Done (false, log (Fopen "ro" "ab" false) w).
Proof.
  apply (write_unwritable_path_fails
           {| files := {[ "ro"%string := bytes "keep" ]};
              locked := {[ "ro"%string ]}; trace := [] |} "ro" (bytes "x" ++ [NUL])).
  compute_done.
Defined.

(** ** The lines of a file *)

Section lines_of_a_file.
Implicit Types B s : list byte.
Implicit Types ss : list (list byte).

Lemma unset_not_in_slots (toks : list (option nat)) : Unset ∉ map slot_of toks ++ [Null].
Proof.
  intros Hin. apply elem_of_app in Hin as [Hin|Hin].
  - apply list_elem_of_fmap in Hin as ([o|] & Ho & _); discriminate.
  - apply list_elem_of_singleton in Hin. discriminate.
Qed.

Lemma segments_lf_free B : Forall (fun s => LF ∉ s) (segments B).
Proof.
  induction B as [|b B IH]; cbn [segments].
  - apply Forall_cons. split; [apply not_elem_of_nil | apply Forall_nil_2].
  - destruct (Byte.eqb b LF) eqn:Hb.
    + apply Forall_cons. split; [apply not_elem_of_nil | exact IH].
    + apply byte_eqb_false in Hb. destruct (segments B) as [|s ss].
      * apply Forall_cons. split; [|apply Forall_nil_2].
        apply not_elem_of_cons. split; [congruence | apply not_elem_of_nil].
      * apply Forall_cons in IH as [Hs Hss]. apply Forall_cons. split; [|exact Hss].
        apply not_elem_of_cons. split; [congruence | exact Hs].
Qed.

Lemma concat_segments B : concat (segments B) = filter (fun b => b ≠ LF) B.
Proof.
  induction B as [|b B IH]; [reflexivity|]. cbn [segments].
  destruct (Byte.eqb b LF) eqn:Hb.
  - apply byte_eqb_true in Hb as ->.
    rewrite filter_cons_False by (intros H; by apply H). exact IH.
  - apply byte_eqb_false in Hb. rewrite filter_cons_True by exact Hb.
    destruct (segments B) as [|s ss]; cbn [concat app] in *; by rewrite <- IH.
Qed.

Lemma concat_filter_nonempty ss :
  concat (filter (fun s => nonempty s = true) ss) = concat ss.
Proof.
  induction ss as [|s ss IH]; [reflexivity|]. destruct s as [|b s].
  - rewrite filter_cons_False by (simpl; congruence). exact IH.
  - rewrite filter_cons_True by reflexivity. cbn [concat]. by rewrite IH.
Qed.
End lines_of_a_file.

(** X1. For a file that is not empty and holds text, [hxfile_read_lines]
    delivers the segments between the newlines that are not empty, in
    their order. The array has one element for every line counted and a
    last one; each element was assigned, and the last one is null. The
    files are as before. *)
Theorem hxfile_read_lines_nonempty_segments
    (pf : platform) (w : world) (path : string) (B : list byte) :
  files w !! path = Some B ->
  B ≠ [] -> NUL ∉ B ->
  (N.of_nat (length B + 1) <= malloc_max pf)%N ->
  (N.of_nat ((line_count B + 1) * sizeof_ptr pf) <= malloc_max pf)%N ->
  exists r w',
    hxfile_read_lines pf w (Some path) = Done (Some r, w')
    /\ lines_of r = filter (fun s => nonempty s = true) (segments B)
    /\ length (out r) = (line_count B + 1)%nat
    /\ last (out r) = Some Null
    /\ (Unset ∉ out r)
    /\ files w' = files w.
Proof.
  intros Hfile Hne Hnul Hmem1 Hmem2.
  destruct (hxfile_read_lines_text pf w path B Hfile Hne Hnul Hmem1 Hmem2)
    as (S' & Hr & _ & Hstr).
  eexists _, _. split; [exact Hr|]. unfold lines_of. cbn [out text].
  split; [exact Hstr|]. split; [|split; [|split]].
  - rewrite length_app, length_map, length_expect. reflexivity.
  - apply last_snoc.
  - apply unset_not_in_slots.
  - reflexivity.
Qed.

Lemma hxfile_read_lines_nonempty_segments_witness :
  let B := LF :: bytes "ab" ++ [LF; LF] ++ bytes "cd" ++ [LF] in
  exists r w',
    hxfile_read_lines x86_64 (world_with "f" B) (Some "f"%string) = Done (Some r, w')
    /\ lines_of r = filter (fun s => nonempty s = true) (segments B)
    /\ length (out r) = (line_count B + 1)%nat
    /\ last (out r) = Some Null
    /\ (Unset ∉ out r)
    /\ files w' = files (world_with "f" B).
Proof.
  apply (hxfile_read_lines_nonempty_segments x86_64
           (world_with "f" (LF :: bytes "ab" ++ [LF; LF] ++ bytes "cd" ++ [LF])) "f").
  - compute_done.
  - discriminate.
  - compute_done.
  - vm_compute. discriminate.
  - vm_compute. discriminate.
Defined.

(** X2. The lines delivered lose nothing but newlines: put end to end they
    are the content without its newlines, and no line is empty or holds a
    newline. *)
Theorem hxfile_read_lines_loses_only_newlines
    (pf : platform) (w : world) (path : string) (B : list byte) :
  files w !! path = Some B ->
  B ≠ [] -> NUL ∉ B ->
  (N.of_nat (length B + 1) <= malloc_max pf)%N ->
  (N.of_nat ((line_count B + 1) * sizeof_ptr pf) <= malloc_max pf)%N ->
  exists r w',
    hxfile_read_lines pf w (Some path) = Done (Some r, w')
    /\ concat (lines_of r) = filter (fun b => b ≠ LF) B
    /\ Forall (fun l => l ≠ [] /\ LF ∉ l) (lines_of r).
Proof.
  intros Hfile Hne Hnul Hmem1 Hmem2.
  destruct (hxfile_read_lines_text pf w path B Hfile Hne Hnul Hmem1 Hmem2)
    as (S' & Hr & _ & Hstr).
  eexists _, _. split; [exact Hr|]. unfold lines_of. cbn [out text].
  rewrite Hstr. split.
  - by rewrite concat_filter_nonempty, concat_segments.
  - apply Forall_forall. intros l Hl. apply list_elem_of_filter in Hl as [Hl Hin].
    split; [by intros -> |].
    pose proof (segments_lf_free B) as Hfree. rewrite Forall_forall in Hfree.
    by apply Hfree.
Qed.

Lemma hxfile_read_lines_loses_only_newlines_witness :
  let B := LF :: bytes "ab" ++ [LF; LF] ++ bytes "cd" in
  exists r w',
    hxfile_read_lines x86_64 (world_with "f" B) (Some "f"%string) = Done (Some r, w')
    /\ concat (lines_of r) = filter (fun b => b ≠ LF) B
    /\ Forall (fun l => l ≠ [] /\ LF ∉ l) (lines_of r).
Proof.
  apply (hxfile_read_lines_loses_only_newlines x86_64
           (world_with "f" (LF :: bytes "ab" ++ [LF; LF] ++ bytes "cd")) "f").
  - compute_done.
  - discriminate.
  - compute_done.
  - vm_compute. discriminate.
  - vm_compute. discriminate.
Defined.

(** X5. When the file cannot be opened, [hxfile_read_lines] returns the
    null pointer after the one failed [fopen]. *)
Theorem hxfile_read_lines_missing_file (pf : platform) (w : world) (path : string) :
  files w !! path = None ->
  hxfile_read_lines pf w (Some path) = Done (None, log (Fopen path "r" false) w).
Proof.
  intros Hfile. unfold hxfile_read_lines, hxfile_read.
  by rewrite (read_missing pf w path _ Hfile).
Qed.

Lemma hxfile_read_lines_missing_file_witness :
  hxfile_read_lines x86_64 (world_with "f" (bytes "x")) (Some "g"%string)
  = Done (None, log (Fopen "g" "r" false) (world_with "f" (bytes "x"))).
Proof.
  apply (hxfile_read_lines_missing_file x86_64 (world_with "f" (bytes "x")) "g").
  compute_done.
Defined.

(** ** Releasing the lines *)

Section releasing.
Implicit Types B s : list byte.
Implicit Types ss : list (list byte).

Lemma tokens_at_ge ss : forall p o s, (o, s) ∈ tokens_at p ss -> (p <= o)%nat.
Proof.
  induction ss as [|s0 ss IH]; intros p o s Hin; [by apply elem_of_nil in Hin|].
  destruct s0 as [|b s0]; cbn [tokens_at] in Hin.
  - apply IH in Hin. lia.
  - apply elem_of_cons in Hin as [[= -> _]|Hin]; [lia|]. apply IH in Hin. lia.
Qed.

(** The first token starts the buffer exactly when the buffer does not
    start with a newline. *)
Lemma first_token_at_start B :
  B ≠ [] ->
  (exists s tl, tokens_at 0 (segments B) = (0%nat, s) :: tl) <-> head B ≠ Some LF.
Proof.
  intros Hne. destruct B as [|b B]; [done|]. cbn [head segments].
  destruct (Byte.eqb b LF) eqn:Hb.
  - apply byte_eqb_true in Hb as ->. split; [|done].
    intros (s & tl & Htl). cbn [tokens_at] in Htl.
    assert ((0%nat, s) ∈ tokens_at 1 (segments B)) as Hin
      by (rewrite Htl; apply elem_of_cons; by left).
    apply tokens_at_ge in Hin. lia.
  - apply byte_eqb_false in Hb. split; [intros _; congruence|]. intros _.
    destruct (segments B) as [|s ss]; by eexists _, _.
Qed.
End releasing.

(** X7. [hxfile_free_lines] on the result of [hxfile_read_lines] passes the
    first element of the array to [free]. For a file that is not empty
    and holds text this is the pointer to the text buffer, the one
    [malloc] returned, exactly when the file does not start with a
    newline. *)
Theorem hxfile_free_lines_frees_text_iff
    (pf : platform) (w : world) (path : string) (B : list byte) :
  files w !! path = Some B ->
  B ≠ [] -> NUL ∉ B ->
  (N.of_nat (length B + 1) <= malloc_max pf)%N ->
  (N.of_nat ((line_count B + 1) * sizeof_ptr pf) <= malloc_max pf)%N ->
  exists r w' p,
    hxfile_read_lines pf w (Some path) = Done (Some r, w')
    /\ hxfile_free_lines (Some r) = Done p
    /\ (p = Tok 0 <-> head B ≠ Some LF).
Proof.
  intros Hfile Hne Hnul Hmem1 Hmem2.
  destruct (hxfile_read_lines_text pf w path B Hfile Hne Hnul Hmem1 Hmem2)
    as (S' & Hr & _ & _).
  pose proof (length_tokens_at B 0) as Hlen.
  pose proof (first_token_at_start B Hne) as Hfirst.
  rewrite Hr. unfold hxfile_free_lines. cbn [out].
  destruct (line_count B) as [|n].
  - destruct (tokens_at 0 (segments B)) as [|[o s] tl]; [|simpl in Hlen; lia].
    eexists _, _, _. split; [reflexivity|]. cbn [expect map app].
    split; [reflexivity|].
    rewrite <- Hfirst. split; [discriminate | by intros (s & tl & ?)].
  - destruct (tokens_at 0 (segments B)) as [|[o s] tl];
      (eexists _, _, _; split; [reflexivity|]); cbn [expect map app slot_of];
      (split; [reflexivity|]); rewrite <- Hfirst.
    + split; [discriminate | by intros (s & tl & ?)].
    + split.
      * intros [= ->]. by eexists _, _.
      * intros (s' & tl' & [= -> _ _]). reflexivity.
Qed.

Lemma hxfile_free_lines_frees_text_iff_witness :
  let B := LF :: bytes "ab" ++ [LF] in
  exists r w' p,
    hxfile_read_lines x86_64 (world_with "f" B) (Some "f"%string) = Done (Some r, w')
    /\ hxfile_free_lines (Some r) = Done p
    /\ (p = Tok 0 <-> head B ≠ Some LF).
Proof.
  apply (hxfile_free_lines_frees_text_iff x86_64
           (world_with "f" (LF :: bytes "ab" ++ [LF])) "f").
  - compute_done.
  - discriminate.
  - compute_done.
  - vm_compute. discriminate.
  - vm_compute. discriminate.
Defined.

(** ** Lines written and read back *)

Section lines_round_trip.
Implicit Types B l s : list byte.
Implicit Types ls : list (list byte).

Lemma segments_no_newline B : LF ∉ B -> segments B = [B].
Proof.
  induction B as [|b B IH]; intros Hlf; [reflexivity|].
  apply not_elem_of_cons in Hlf as [Hb Hlf]. cbn [segments].
  apply not_eq_sym, byte_eqb_false in Hb. by rewrite Hb, (IH Hlf).
Qed.

Lemma segments_line l B : LF ∉ l -> segments (l ++ LF :: B) = l :: segments B.
Proof.
  induction l as [|b l IH]; intros Hlf; [reflexivity|].
  apply not_elem_of_cons in Hlf as [Hb Hlf]. cbn [segments app].
  apply not_eq_sym, byte_eqb_false in Hb. by rewrite Hb, (IH Hlf).
Qed.

Lemma segments_join ls :
  ls ≠ [] -> Forall (fun l => LF ∉ l) ls -> segments (join LF ls) = ls.
Proof.
  induction ls as [|l ls IH]; intros Hne Hall; [done|].
  apply Forall_cons in Hall as [Hl Hls]. destruct ls as [|l' ls].
  - by apply segments_no_newline.
  - cbn [join]. cbn [join] in IH. rewrite (segments_line _ _ Hl).
    by rewrite IH.
Qed.

Lemma join_nul_free ls : Forall (fun l => NUL ∉ l) ls -> NUL ∉ join LF ls.
Proof.
  induction ls as [|l ls IH]; intros Hall; [apply not_elem_of_nil|].
  apply Forall_cons in Hall as [Hl Hls]. destruct ls as [|l' ls]; [exact Hl|].
  cbn [join]. cbn [join] in IH. apply not_elem_of_app. split; [exact Hl|].
  apply not_elem_of_cons. split; [discriminate | by apply IH].
Qed.

(** As many lines are counted as were written. *)
Lemma line_count_join ls :
  ls ≠ [] -> Forall (fun l => l ≠ [] /\ LF ∉ l) ls ->
  line_count (join LF ls) = length ls.
Proof.
  intros Hne Hall.
  assert (segments (join LF ls) = ls) as Hseg.
  { apply segments_join; [exact Hne|]. eapply Forall_impl; [exact Hall|]. by intros l []. }
  pose proof (length_segments (join LF ls)) as Hlen. rewrite Hseg in Hlen.
  destruct (last_segments (join LF ls)) as (s & Hlast & Hs). rewrite Hseg in Hlast.
  assert (nonempty s = true) as Hsne.
  { apply last_Some_elem_of in Hlast. rewrite Forall_forall in Hall.
    destruct (Hall s Hlast) as [Hsn _]. by destruct s. }
  rewrite Hsne in Hs. unfold line_count.
  destruct (last (join LF ls)) as [b|]; [|discriminate].
  destruct (Byte.eqb b LF); [discriminate | lia].
Qed.
End lines_round_trip.

(** X6. Lines that are written to a file with a newline between two of
    them, and read back with [hxfile_read_lines], are the same lines, when
    none of them is empty or holds a newline or a zero byte. *)
Theorem write_lines_read_lines_round_trip
    (pf : platform) (w : world) (path : string) (ls : list (list byte)) :
  ls ≠ [] ->
  Forall (fun l => l ≠ [] /\ LF ∉ l) ls ->
  Forall (fun l => NUL ∉ l) ls ->
  path ∉ locked w ->
  (N.of_nat (length (join LF ls) + 1) <= malloc_max pf)%N ->
  (N.of_nat ((length ls + 1) * sizeof_ptr pf) <= malloc_max pf)%N ->
  exists w1 r w2,
    hxfile_write w (Some path) (Some (join LF ls ++ [NUL])) = Done (true, w1)
    /\ hxfile_read_lines pf w1 (Some path) = Done (Some r, w2)
    /\ lines_of r = ls.
Proof.
  intros Hne Hall Hnul Hw Hmem1 Hmem2.
  pose proof (join_nul_free ls Hnul) as Hjnul.
  destruct (write_truncates w path (join LF ls) [] EmptyString Hjnul Hw)
    as (w1 & Hw1 & Hf1 & _).
  assert (files w1 !! path = Some (join LF ls)) as Hfile
    by (by rewrite Hf1, lookup_insert_eq).
  assert (segments (join LF ls) = ls) as Hseg.
  { apply segments_join; [exact Hne|]. eapply Forall_impl; [exact Hall|]. by intros l []. }
  destruct (hxfile_read_lines_text pf w1 path (join LF ls) Hfile)
    as (S' & Hr & _ & Hstr).
  - destruct ls as [|l ls]; [done|]. apply Forall_cons in Hall as [[Hl _] _].
    destruct l; [done|]. by destruct ls.
  - exact Hjnul.
  - exact Hmem1.
  - by rewrite (line_count_join ls Hne Hall).
  - exists w1. eexists _, _. split; [exact Hw1|]. split; [exact Hr|].
    unfold lines_of. cbn [out text]. rewrite Hstr, Hseg.
    clear -Hall. induction Hall as [|l ls [Hl _] _ IH]; [reflexivity|].
    rewrite filter_cons_True by (by destruct l). by rewrite IH.
Qed.

Lemma write_lines_read_lines_round_trip_witness :
  exists w1 r w2,
    hxfile_write (world_with "old" []) (Some "f"%string)
      (Some (join LF [bytes "ab"; bytes "c"; bytes "def"] ++ [NUL])) = Done (true, w1)
    /\ hxfile_read_lines x86_64 w1 (Some "f"%string) = Done (Some r, w2)
    /\ lines_of r = [bytes "ab"; bytes "c"; bytes "def"].
Proof.
  apply (write_lines_read_lines_round_trip x86_64 (world_with "old" []) "f"
           [bytes "ab"; bytes "c"; bytes "def"]).
  - discriminate.
  - repeat (apply Forall_cons; split; [split; [discriminate | compute_done]|]).
    apply Forall_nil_2.
  - repeat (apply Forall_cons; split; [compute_done|]). apply Forall_nil_2.
  - compute_done.
  - vm_compute. discriminate.
  - vm_compute. discriminate.
Defined.

(** ** A zero byte in a line *)

(** X11. A line shorter than a chunk that holds a zero byte, and whose
    first byte is not 0xFF where [char] is signed, is consumed whole, with
    its newline, but the string returned stops before the zero byte,
    provided the one allocation succeeds. *)
Theorem hxfile_read_line_cut_at_zero_byte
    (pf : platform) (behind a b rest : list byte) :
  NUL ∉ a -> LF ∉ a ++ NUL :: b ->
  (length (a ++ NUL :: b) < 127)%nat ->
  (char_signed pf = true -> head a ≠ Some xff) ->
  (N.of_nat (length a + 1) <= malloc_max pf)%N ->
  exists blk,
    hxfile_read_line pf (Some (InStream behind ((a ++ NUL :: b) ++ LF :: rest)))
    = Done (Some blk, Some (InStream (behind ++ (a ++ NUL :: b) ++ [LF]) rest))
    /\ c_str blk = a.
Proof.
  intros Hnul Hlf Hlen Hfront Hmem.
  set (l := a ++ NUL :: b) in *.
  assert (exists x ahead, l ++ LF :: rest = x :: ahead
                          /\ to_char pf (byte_to_Z x) ≠ EOF) as (x & ahead & E & Hx).
  { subst l. destruct a as [|x a'].
    - exists NUL, (b ++ LF :: rest). split; [reflexivity|].
      rewrite to_char_eof. intros [_ ?]. discriminate.
    - exists x, ((a' ++ NUL :: b) ++ LF :: rest). split; [reflexivity|].
      rewrite to_char_eof. intros [Hs ->]. by apply (Hfront Hs). }
  rewrite E, (hxfile_read_line_peeked pf behind x ahead Hx), <- E.
  rewrite (read_line_loop_step pf _ _ 0 None []);
    [| apply length_fresh | split; [apply not_elem_of_nil | reflexivity] | simpl; lia].
  pose proof (length_fresh pf 128) as Hbuf.
  flag_reset (fresh pf 128) Hbuf Hbuf1 H126.
  rewrite (fgets_line _ behind l rest Hlf Hlen). cbv beta iota zeta.
  assert (c_str ((l ++ [LF]) ++ NUL :: drop (length l + 2) (<[126%nat:=NUL]> (fresh pf 128)))
          = a) as ->.
  { subst l. rewrite <- !app_assoc. cbn [app]. by apply c_str_app. }
  cbn [app Nat.add]. apply N.leb_le in Hmem. rewrite Hmem.
  assert (chunk_incomplete
            ((l ++ [LF]) ++ NUL :: drop (length l + 2) (<[126%nat:=NUL]> (fresh pf 128)))
          = false) as ->.
  { destruct (decide (length l = 126%nat)) as [H126l|Hne].
    - rewrite drop_ge by (rewrite length_insert; lia).
      rewrite (chunk_incomplete_full _ LF);
        [reflexivity | rewrite length_app; simpl; lia
        | rewrite lookup_app_r by lia; by rewrite H126l].
    - replace (length l + 2)%nat with (length (l ++ [LF]) + 1)%nat
        by (rewrite length_app; simpl; lia).
      apply chunk_complete_short; [exact Hbuf1 | exact H126 |].
      rewrite length_app. simpl. lia. }
  cbn [mbind outcome_bind]. eexists. split; [reflexivity|].
  by apply c_str_block_of.
Qed.

Lemma hxfile_read_line_cut_at_zero_byte_witness :
  exists blk,
    hxfile_read_line x86_64
      (Some (InStream [] ((bytes "ab" ++ NUL :: bytes "cd") ++ LF :: bytes "next")))
    = Done (Some blk,
            Some (InStream ([] ++ (bytes "ab" ++ NUL :: bytes "cd") ++ [LF]) (bytes "next")))
    /\ c_str blk = bytes "ab".
Proof.
  apply (hxfile_read_line_cut_at_zero_byte x86_64 [] (bytes "ab") (bytes "cd")
           (bytes "next")).
  - compute_done.
  - compute_done.
  - vm_compute. lia.
  - discriminate.
  - vm_compute. discriminate.
Defined.

(** ** Appending, then reading *)

(** X17. What is appended to a file is read back, after what the file held,
    by the whole-file read. *)
Theorem hxfile_append_then_read
    (pf : platform) (w : world) (path : string) (old t r : list byte) :
  files w !! path = Some old ->
  NUL ∉ t -> path ∉ locked w ->
  (N.of_nat (length (old ++ t) + 1) <= malloc_max pf)%N ->
  exists w1 w2,
    hxfile_append w (Some path) (Some (t ++ NUL :: r)) = Done (true, w1)
    /\ hxfile_read pf w1 (Some path) = Done (Some ((old ++ t) ++ [NUL]), w2).
Proof.
  intros Hold Ht Hw Hmem. unfold hxfile_append, hxfile_read.
  destruct (write_appends w path t r EmptyString Ht Hw) as (w1 & Hw1 & Hf1 & _).
  assert (files w1 !! path = Some (old ++ t)) as Hfile.
  { rewrite Hf1, lookup_insert_eq. unfold content. by rewrite Hold. }
  exists w1. eexists. split; [exact Hw1|].
  rewrite (read_existing pf w1 path _ _ Hfile).
  apply N.leb_le in Hmem. by rewrite Hmem.
Qed.

Lemma hxfile_append_then_read_witness :
  exists w1 w2,
    hxfile_append (world_with "f" (bytes "old")) (Some "f"%string)
      (Some (bytes "new" ++ NUL :: [])) = Done (true, w1)
    /\ hxfile_read x86_64 w1 (Some "f"%string)
       = Done (Some ((bytes "old" ++ bytes "new") ++ [NUL]), w2).
Proof.
  apply (hxfile_append_then_read x86_64 (world_with "f" (bytes "old")) "f"
           (bytes "old") (bytes "new") []).
  - compute_done.
  - compute_done.
  - compute_done.
  - vm_compute. discriminate.
Defined.

(** Witnesses for the lines of a buffer. *)

Lemma split_lines_last_segment_witness :
  let B := bytes "ab" ++ [LF; LF] ++ bytes "cd" in
  exists r,
    split_lines x86_64 B = Done (Some r)
    /\ last (lines_of r) = last (segments B).
Proof.
  apply (split_lines_last_segment x86_64 (bytes "ab" ++ [LF; LF] ++ bytes "cd") "d"%byte).
  - compute_done.
  - reflexivity.
  - discriminate.
  - vm_compute. discriminate.
  - vm_compute. discriminate.
Defined.

Lemma split_lines_lossless_without_empty_line_witness :
  let B := bytes "ab" ++ [LF] ++ bytes "cd" in
  exists r,
    split_lines x86_64 B = Done (Some r)
    /\ lines_of r = segments B
    /\ join LF (lines_of r) = B.
Proof.
  apply (split_lines_lossless_without_empty_line x86_64 (bytes "ab" ++ [LF] ++ bytes "cd")).
  - compute_done.
  - repeat (apply Forall_cons; split; [reflexivity|]). apply Forall_nil_2.
  - vm_compute. discriminate.
  - vm_compute. discriminate.
Defined.

Lemma read_all_lines_returns_the_lines_witness :
  read_all_lines x86_64 5
    (Some (InStream [] (unlines [bytes "ab"; []; bytes "cd"] ++ bytes "x")))
  = Done (map (fun l => l ++ [LF]) [bytes "ab"; []; bytes "cd"]
            ++ (if nonempty (bytes "x") then [bytes "x"] else []),
          Some (InStream ([] ++ unlines [bytes "ab"; []; bytes "cd"] ++ bytes "x") [])).
Proof.
  apply (read_all_lines_returns_the_lines x86_64 [bytes "ab"; []; bytes "cd"] [] (bytes "x") 5).
  - reflexivity.
  - repeat (apply Forall_cons; split;
            [split; [compute_done | split; [compute_done | discriminate]]|]).
    apply Forall_nil_2.
  - right. split; [split; [compute_done | split; [compute_done | discriminate]]|].
    vm_compute. discriminate.
  - vm_compute. discriminate.
  - vm_compute. lia.
Defined.
